(** * ANN2: the layer and the loss family, embedded and verified

    The development follows the two C++ translation units of the core:

    - [experiments/loss.cpp]: the classes [logLoss], [squaredLoss],
      [absoluteLoss], [huberLoss], [pseudoHuberLoss] and [lossFactory];
    - [src/Layer.cpp]: the constructor of [Layer], [Layer::forward] and
      [Layer::backward].

    Data is modelled as the code has it.  A [double] is a binary64 number
    ([PrimFloat.float]) with IEEE-754 round-to-nearest arithmetic, so NaN,
    the infinities, signed zeros and rounding are all present.  An
    [arma::mat] is its dimensions together with its column-major element
    array.  A C++ exception is the [Throw] branch of [result]; a method of
    [Layer] is a state transformer over the object that also yields a
    [result], because an exception thrown half-way leaves the assignments
    made so far in place.

    Three things are fixed by neither the repository nor the documentation
    of its libraries and are therefore parameters ([Platform]): the libm
    functions behind [arma::log] and [arma::pow], and the value Armadillo's
    [sign] gives to NaN, on which its documentation is silent (its
    [arma_sign] for real types hands NaN through; a three-way comparison
    would give 0).  Wherever a theorem needs a fact about them it says so
    in a hypothesis. *)

From Stdlib Require Import String.
From Stdlib Require Import ZArith List Bool Lia.
From Stdlib Require Import Floats.
From Stdlib Require Uint63.
From Stdlib Require Import Reals Lra.
Import ListNotations.
Open Scope string_scope.
Open Scope list_scope.

(* ================================================================== *)
(** * Part I. The embedding *)
(* ================================================================== *)

(** ** Exceptions and fallible results *)

(** The exceptions that can leave the two translation units: Armadillo's
    size and bounds checks raise [std::logic_error]; Rcpp's list lookup and
    conversions raise [index_out_of_bounds] and [not_compatible]. *)
Inductive exn : Type :=
| logic_error (what : string)
| index_out_of_bounds (what : string)
| not_compatible (what : string).

Inductive result (A : Type) : Type :=
| Ok (a : A)
| Throw (e : exn).

Arguments Ok {A} a.
Arguments Throw {A} e.

Definition bind {A B : Type} (r : result A) (k : A -> result B) : result B :=
  match r with
  | Ok a => k a
  | Throw e => Throw e
  end.

Declare Scope result_scope.
Delimit Scope result_scope with result.
Notation "x <- c ;; k" := (bind c (fun x => k))
  (at level 61, c at next level, right associativity) : result_scope.

(** ** What the linked libraries leave open *)

Class Platform : Type := {
  (** [std::log] on doubles *)
  std_log : float -> float;
  (** [std::pow] on doubles *)
  std_pow : float -> float -> float;
  (** the value of Armadillo's [sign] at NaN *)
  sign_of_nan : float
}.

(** The special values C prescribes for [log] and [pow] (C11 Annex F,
    F.10.3.7 and F.10.4.4). *)
Class AnnexF (P : Platform) : Prop := {
  log_zero : std_log 0%float = neg_infinity;
  pow_zero_two : std_pow 0%float 2%float = 0%float
}.

(** ** Armadillo: dense matrices of doubles *)

Module Arma.

Open Scope float_scope.

(** [arma::mat]: [uword] dimensions and the column-major array [mem]. *)
Record mat : Type := Mat {
  n_rows : nat;
  n_cols : nat;
  mem : list float
}.

Definition n_elem (m : mat) : nat := length (mem m).

(** The class invariant [n_elem == n_rows * n_cols]. *)
Definition wf (m : mat) : Prop :=
  length (mem m) = (n_rows m * n_cols m)%nat.

(** The default-constructed matrix, 0x0. *)
Definition empty : mat := Mat 0 0 [].

Definition same_size (a b : mat) : bool :=
  Nat.eqb (n_rows a) (n_rows b) && Nat.eqb (n_cols a) (n_cols b).

(** Element [(i, j)], column-major. *)
Definition at_ (m : mat) (i j : nat) : float :=
  nth (i + j * n_rows m)%nat (mem m) 0.

(** The element array of the [r] x [c] matrix whose element [(i, j)] is
    [f i j]: columns one after the other. *)
Definition generate (r c : nat) (f : nat -> nat -> float) : list float :=
  flat_map (fun j => map (fun i => f i j) (seq 0 r)) (seq 0 c).

(** Conversion of a [uword] to [double], as the usual arithmetic
    conversions do in [double / uword]; exact below 2^53, rounded to
    nearest above, and meant for counts below 2^63. *)
Definition of_uword (n : nat) : float :=
  PrimFloat.of_uint63 (Uint63.of_Z (Z.of_nat n)).

(** *** Element-wise operations *)

Definition map_mat (f : float -> float) (m : mat) : mat :=
  Mat (n_rows m) (n_cols m) (map f (mem m)).

Definition zip_mat (what : string) (f : float -> float -> float) (a b : mat)
  : result mat :=
  if same_size a b
  then Ok (Mat (n_rows a) (n_cols a)
               (map (fun p => f (fst p) (snd p)) (combine (mem a) (mem b))))
  else Throw (logic_error what).

(** [a - b] *)
Definition minus : mat -> mat -> result mat :=
  zip_mat "subtraction: incompatible matrix dimensions" PrimFloat.sub.

(** [a % b], the element-wise product *)
Definition schur : mat -> mat -> result mat :=
  zip_mat "element-wise multiplication: incompatible matrix dimensions"
          PrimFloat.mul.

(** [k * m] *)
Definition scalar_times (k : float) : mat -> mat := map_mat (fun x => x * k).
(** [m - k] *)
Definition minus_post (m : mat) (k : float) : mat := map_mat (fun x => x - k) m.
(** [m / k] *)
Definition div_post (m : mat) (k : float) : mat := map_mat (fun x => x / k) m.
(** [k + m] *)
Definition plus_pre (k : float) : mat -> mat := map_mat (fun x => x + k).
(** [k / m] *)
Definition div_pre (k : float) : mat -> mat := map_mat (fun x => k / x).
(** [-m] *)
Definition neg : mat -> mat := map_mat PrimFloat.opp.

Definition abs : mat -> mat := map_mat PrimFloat.abs.
Definition sqrt : mat -> mat := map_mat PrimFloat.sqrt.

(** Armadillo's scalar [sign]: +1 above zero, -1 below, 0 at (either)
    zero; NaN compares false three times and gets the platform's value. *)
Definition sign1 {P : Platform} (x : float) : float :=
  if 0 <? x then 1
  else if x <? 0 then -1
  else if x =? 0 then 0
  else sign_of_nan.

Definition sign {P : Platform} : mat -> mat := map_mat sign1.
Definition log {P : Platform} : mat -> mat := map_mat std_log.
Definition pow {P : Platform} (m : mat) (p : float) : mat :=
  map_mat (fun x => std_pow x p) m.

(** One element of [clamp]. *)
Definition clamp1 (lo hi x : float) : float :=
  if x <? lo then lo else if hi <? x then hi else x.

(** [clamp(m, lo, hi)], which refuses [lo > hi]. *)
Definition clamp (m : mat) (lo hi : float) : result mat :=
  if hi <? lo
  then Throw (logic_error "clamp(): min_val must be less than max_val")
  else Ok (map_mat (clamp1 lo hi) m).

(** *** Relational operators, [find], [elem] *)

(** [m == k] and [m <= k]: one flag per element, in [mem] order. *)
Definition eq_scalar (m : mat) (k : float) : list bool :=
  map (fun x => x =? k) (mem m).
Definition le_scalar (m : mat) (k : float) : list bool :=
  map (fun x => x <=? k) (mem m).

(** [find]: the linear indices of the set flags, ascending. *)
Fixpoint find_from (k : nat) (bs : list bool) : list nat :=
  match bs with
  | [] => []
  | b :: bs' => if b then k :: find_from (S k) bs' else find_from (S k) bs'
  end.

Definition find (bs : list bool) : list nat := find_from 0 bs.

Definition in_bounds (m : mat) (idx : list nat) : bool :=
  forallb (fun i => Nat.ltb i (n_elem m)) idx.

(** [m.elem(idx)] read: a column vector, after the bounds check. *)
Definition elem (m : mat) (idx : list nat) : result mat :=
  if in_bounds m idx
  then Ok (Mat (length idx) 1 (map (fun i => nth i (mem m) 0) idx))
  else Throw (logic_error "Mat::elem(): index out of bounds").

Fixpoint set_nth (i : nat) (v : float) (l : list float) : list float :=
  match l, i with
  | [], _ => []
  | _ :: l', O => v :: l'
  | x :: l', S i' => x :: set_nth i' v l'
  end.

(** [m.elem(idx) = v]: the elements of [v] are stored one by one at the
    listed positions. *)
Definition set_elem (m : mat) (idx : list nat) (v : mat) : result mat :=
  if negb (Nat.eqb (length idx) (n_elem v))
  then Throw (logic_error "Mat::elem(): size mismatch")
  else if in_bounds m idx
  then Ok (Mat (n_rows m) (n_cols m)
               (fold_left (fun l p => set_nth (fst p) (snd p) l)
                          (combine idx (mem v)) (mem m)))
  else Throw (logic_error "Mat::elem(): index out of bounds").

(** *** Reductions and products *)

(** [accu]: the sum of all elements.  Armadillo's interface fixes no order
    of accumulation; here the elements are added in [mem] order, from 0. *)
Definition accu (m : mat) : float := fold_left PrimFloat.add (mem m) 0.

Definition row (m : mat) (i : nat) : list float :=
  map (fun k => at_ m i k) (seq 0 (n_cols m)).
Definition col (m : mat) (j : nat) : list float :=
  map (fun k => at_ m k j) (seq 0 (n_rows m)).

(** The inner product behind [*].  Again the interface fixes no order;
    here the products are accumulated from 0, first to last. *)
Definition dot (xs ys : list float) : float :=
  fold_left (fun acc p => acc + fst p * snd p) (combine xs ys) 0.

(** [m.t()] *)
Definition t (m : mat) : mat :=
  Mat (n_cols m) (n_rows m)
      (generate (n_cols m) (n_rows m) (fun i j => at_ m j i)).

(** [a * b], the matrix product *)
Definition mul (a b : mat) : result mat :=
  if Nat.eqb (n_cols a) (n_rows b)
  then Ok (Mat (n_rows a) (n_cols b)
               (generate (n_rows a) (n_cols b)
                         (fun i j => dot (row a i) (col b j))))
  else Throw (logic_error "matrix multiplication: incompatible matrix dimensions").

(** [m.each_col() += v]: [v] must be a column as tall as [m]. *)
Definition each_col_plus (m v : mat) : result mat :=
  if Nat.eqb (n_rows v) (n_rows m) && Nat.eqb (n_cols v) 1
  then Ok (Mat (n_rows m) (n_cols m)
               (generate (n_rows m) (n_cols m)
                         (fun i j => at_ m i j + at_ v i 0)))
  else Throw (logic_error "each_col(): incompatible size").

(** *** Generators *)

(** [zeros(r, c)]; [zeros<vec>(n)] is [zeros n 1]. *)
Definition zeros (r c : nat) : mat := Mat r c (repeat 0 (r * c)%nat).

(** [randn<mat>(r, c)]: an [r] x [c] matrix filled, in [mem] order, with
    the numbers the normal generator hands out; [draw k] is the k-th of
    them. *)
Definition randn (draw : nat -> float) (r c : nat) : mat :=
  Mat r c (map draw (seq 0 (r * c)%nat)).

End Arma.

(** [std::numeric_limits<double>::min()]: the smallest positive normal
    double, 2^-1022 (not the most negative double). *)
Definition DBL_MIN : float := 0x1p-1022%float.

(** [std::numeric_limits<double>::max()]: the largest finite double. *)
Definition DBL_MAX : float := 0x1.fffffffffffffp1023%float.

(** 2^52: the integer significand of the doubles 1 and -1. *)
Definition pos2_52 : positive := 4503599627370496.

(** ** Rcpp: the configuration list *)

Module Rcpp.

(** The R values a configuration holds: numeric and character vectors. *)
Inductive SEXP : Type :=
| REALSXP (v : list float)
| STRSXP (v : list string).

(** [Rcpp::List] with names: pairs in list order. *)
Definition List : Type := list (string * SEXP).

(** [l[name]] read as a value: the first element of that name, or
    [index_out_of_bounds]. *)
Fixpoint get (l : List) (name : string) : result SEXP :=
  match l with
  | [] => Throw (index_out_of_bounds name)
  | (n, v) :: l' => if String.eqb name n then Ok v else get l' name
  end.

(** [as<double>]: one number. *)
Definition as_double (x : SEXP) : result float :=
  match x with
  | REALSXP [d] => Ok d
  | STRSXP [_] => Throw (not_compatible "Not compatible with requested type")
  | _ => Throw (not_compatible "Expecting a single value")
  end.

(** [as<std::string>]: one string. *)
Definition as_string (x : SEXP) : result string :=
  match x with
  | STRSXP [s] => Ok s
  | _ => Throw (not_compatible "Expecting a single string value")
  end.

End Rcpp.

(** ** experiments/loss.cpp *)

Import Arma.
Local Open Scope result_scope.
Local Open Scope float_scope.

Module logLoss.
Section Methods.
Context {P : Platform}.

Definition eval (y y_fit : mat) : result float :=
  sel <- elem y_fit (find (eq_scalar y 1)) ;;
  l <- clamp (neg (log sel)) DBL_MIN DBL_MAX ;;
  Ok (accu l / of_uword (n_rows y)).

Definition grad (y y_fit : mat) : result mat :=
  minus y_fit y.

End Methods.
End logLoss.

Module squaredLoss.
Section Methods.
Context {P : Platform}.

Definition eval (y y_fit : mat) : result float :=
  d <- minus y_fit y ;;
  let l := pow d 2 in
  Ok (accu l / of_uword (n_rows y)).

Definition grad (y y_fit : mat) : result mat :=
  d <- minus y_fit y ;;
  Ok (scalar_times 2 d).

End Methods.
End squaredLoss.

Module absoluteLoss.
Section Methods.
Context {P : Platform}.

Definition eval (y y_fit : mat) : result float :=
  d <- minus y_fit y ;;
  let l := abs d in
  Ok (accu l / of_uword (n_rows y)).

Definition grad (y y_fit : mat) : result mat :=
  d <- minus y_fit y ;;
  Ok (sign d).

End Methods.
End absoluteLoss.

Module huberLoss.
Section Methods.
Context {P : Platform}.

(** The constructor's member initialiser [dHuber(loss_param_["dHuber"])]. *)
Definition new (loss_param_ : Rcpp.List) : result float :=
  v <- Rcpp.get loss_param_ "dHuber" ;;
  Rcpp.as_double v.

Definition eval (dHuber : float) (y y_fit : mat) : result float :=
  d <- minus y_fit y ;;
  let E := abs d in
  let l := scalar_times dHuber (minus_post E (dHuber / 2)) in
  let iE := find (le_scalar E dHuber) in
  EiE <- elem E iE ;;
  l <- set_elem l iE (div_post (pow EiE 2) 2) ;;
  Ok (accu l / of_uword (n_rows y)).

Definition grad (dHuber : float) (y y_fit : mat) : result mat :=
  E <- minus y_fit y ;;
  let dl := scalar_times dHuber (sign E) in
  let iE := find (le_scalar (abs E) dHuber) in
  EiE <- elem E iE ;;
  set_elem dl iE EiE.

End Methods.
End huberLoss.

Module pseudoHuberLoss.
Section Methods.
Context {P : Platform}.

Definition new (loss_param_ : Rcpp.List) : result float :=
  v <- Rcpp.get loss_param_ "dHuber" ;;
  Rcpp.as_double v.

Definition eval (dHuber : float) (y y_fit : mat) : result float :=
  d <- minus y_fit y ;;
  let l := minus_post (sqrt (plus_pre 1 (pow (div_post d dHuber) 2))) 1 in
  Ok (accu l / of_uword (n_rows y)).

Definition grad (dHuber : float) (y y_fit : mat) : result mat :=
  E <- minus y_fit y ;;
  schur E (div_pre 1 (sqrt (plus_pre 1 (pow (div_post E dHuber) 2)))).

End Methods.
End pseudoHuberLoss.

(** An object of the [loss] hierarchy as [createLoss] builds it: the class
    it was constructed from, with its member [dHuber] where it has one. *)
Inductive loss : Type :=
| new_logLoss
| new_squaredLoss
| new_absoluteLoss
| new_huberLoss (dHuber : float)
| new_pseudoHuberLoss (dHuber : float).

(** The virtual calls [l->eval(y, y_fit)] and [l->grad(y, y_fit)]. *)
Definition loss_eval {P : Platform} (l : loss) (y y_fit : mat) : result float :=
  match l with
  | new_logLoss => logLoss.eval y y_fit
  | new_squaredLoss => squaredLoss.eval y y_fit
  | new_absoluteLoss => absoluteLoss.eval y y_fit
  | new_huberLoss d => huberLoss.eval d y y_fit
  | new_pseudoHuberLoss d => pseudoHuberLoss.eval d y y_fit
  end.

Definition loss_grad {P : Platform} (l : loss) (y y_fit : mat) : result mat :=
  match l with
  | new_logLoss => logLoss.grad y y_fit
  | new_squaredLoss => squaredLoss.grad y y_fit
  | new_absoluteLoss => absoluteLoss.grad y y_fit
  | new_huberLoss d => huberLoss.grad d y y_fit
  | new_pseudoHuberLoss d => pseudoHuberLoss.grad d y y_fit
  end.

Module lossFactory.

Record lossFactory : Type := {
  loss_param : Rcpp.List;
  type : string
}.

(** The constructor: keeps the list and reads its [type]. *)
Definition new (loss_param_ : Rcpp.List) : result lossFactory :=
  v <- Rcpp.get loss_param_ "type" ;;
  ty <- Rcpp.as_string v ;;
  Ok {| loss_param := loss_param_; type := ty |}.

(** [createLoss]: a pointer to a new object ([Some]), the null pointer
    ([None]), or the exception of a constructor. *)
Definition createLoss (f : lossFactory) : result (option loss) :=
  if String.eqb (type f) "log" then Ok (Some new_logLoss)
  else if String.eqb (type f) "squared" then Ok (Some new_squaredLoss)
  else if String.eqb (type f) "absolute" then Ok (Some new_absoluteLoss)
  else if String.eqb (type f) "huber" then
    d <- huberLoss.new (loss_param f) ;; Ok (Some (new_huberLoss d))
  else if String.eqb (type f) "pseudoHuber" then
    d <- pseudoHuberLoss.new (loss_param f) ;; Ok (Some (new_pseudoHuberLoss d))
  else Ok None.

End lossFactory.

(** ** src/Layer.cpp *)

(** The two collaborators of a layer, as the calls in [Layer.cpp] use
    them.  An activation maps a matrix to a matrix; an optimizer is an
    object with a state of its own, whose methods may throw. *)
Record Activation : Type := {
  eval : mat -> mat;
  grad : mat -> mat
}.

Class Optimizer (OptState : Type) : Type := {
  updateW : OptState -> mat -> mat -> mat -> result mat * OptState;
  updateb : OptState -> mat -> mat -> result mat * OptState
}.

Module Layer.
Section Methods.
Context {OptState : Type} {Opt : Optimizer OptState}.

(** The data members of [Layer]. *)
Record Layer : Type := {
  n_nodes : nat;
  W : mat;
  b : mat;
  A_prev : mat;
  Z : mat;
  O : OptState;
  g : Activation
}.

Definition set_W (v : mat) (L : Layer) : Layer :=
  {| n_nodes := n_nodes L; W := v; b := b L; A_prev := A_prev L;
     Z := Z L; O := O L; g := g L |}.
Definition set_b (v : mat) (L : Layer) : Layer :=
  {| n_nodes := n_nodes L; W := W L; b := v; A_prev := A_prev L;
     Z := Z L; O := O L; g := g L |}.
Definition set_A_prev (v : mat) (L : Layer) : Layer :=
  {| n_nodes := n_nodes L; W := W L; b := b L; A_prev := v;
     Z := Z L; O := O L; g := g L |}.
Definition set_Z (v : mat) (L : Layer) : Layer :=
  {| n_nodes := n_nodes L; W := W L; b := b L; A_prev := A_prev L;
     Z := v; O := O L; g := g L |}.
Definition set_O (v : OptState) (L : Layer) : Layer :=
  {| n_nodes := n_nodes L; W := W L; b := b L; A_prev := A_prev L;
     Z := Z L; O := v; g := g L |}.

(** The constructor [Layer(nodes_in_, nodes_out_, activ_param_,
    optim_param_)], for sizes that are not negative.  The weights are
    normal draws divided by [std::sqrt(nodes_in_)], the bias is zero, the
    caches stay the default 0x0 matrices.  The two factories are external:
    [createOptimizer] stands for [OptimizerFactory(W, b, optim_param_)
    .createOptimizer()] and [ActivationFactory] for
    [ActivationFactory(activ_param_)]; either may throw, and then no layer
    is built. *)
Definition new (draw : nat -> float)
    (createOptimizer : mat -> mat -> result OptState)
    (ActivationFactory : result Activation)
    (nodes_in_ nodes_out_ : nat) : result Layer :=
  let W0 := div_post (randn draw nodes_out_ nodes_in_)
                     (PrimFloat.sqrt (of_uword nodes_in_)) in
  let b0 := zeros nodes_out_ 1 in
  o <- createOptimizer W0 b0 ;;
  a <- ActivationFactory ;;
  Ok {| n_nodes := nodes_out_; W := W0; b := b0;
        A_prev := Arma.empty; Z := Arma.empty; O := o; g := a |}.

(** A method body: it runs on the object and leaves it changed, whether it
    returns or throws. *)
Definition method (A : Type) : Type := Layer -> result A * Layer.

Definition ret {A : Type} (a : A) : method A := fun L => (Ok a, L).

Definition seq_ {A B : Type} (m : method A) (k : A -> method B) : method B :=
  fun L =>
    match m L with
    | (Ok a, L') => k a L'
    | (Throw e, L') => (Throw e, L')
    end.

(** Reading the members, assigning one, evaluating an expression. *)
Definition this : method Layer := fun L => (Ok L, L).
Definition assign (set : Layer -> Layer) : method unit :=
  fun L => (Ok tt, set L).
Definition expr {A : Type} (r : result A) : method A := fun L => (r, L).

(** A call on the optimizer [O]: it may change the optimizer. *)
Definition call_O {A : Type} (f : OptState -> result A * OptState) : method A :=
  fun L => let (r, o) := f (O L) in (r, set_O o L).

Notation "x <~ c ; k" := (seq_ c (fun x => k))
  (at level 61, c at next level, right associativity).
Notation "c ;; k" := (seq_ c (fun _ => k))
  (at level 61, right associativity).

(** A layer as the constructor leaves it: the caches [A_prev] and [Z] are
    still the default 0x0 matrices. *)
Definition fresh (L : Layer) : Prop :=
  A_prev L = Arma.empty /\ Z L = Arma.empty.

Definition forward (X : mat) : method mat :=
  assign (set_A_prev X) ;;
  L <~ this ;
  WX <~ expr (mul (W L) X) ;
  assign (set_Z WX) ;;
  L <~ this ;
  Zb <~ expr (each_col_plus (Z L) (b L)) ;
  assign (set_Z Zb) ;;
  L <~ this ;
  ret (eval (g L) (Z L)).

Definition backward (E : mat) : method mat :=
  L <~ this ;
  D <~ expr (schur E (t (grad (g L) (Z L)))) ;
  W' <~ call_O (fun o => updateW o (W L) D (A_prev L)) ;
  assign (set_W W') ;;
  L <~ this ;
  b' <~ call_O (fun o => updateb o (b L) D) ;
  assign (set_b b') ;;
  L <~ this ;
  expr (mul D (W L)).

End Methods.
End Layer.

(** ** Reference formulations *)

(** The clamp of [logLoss::eval], written out: a value below 2^-1022 (the
    smallest positive normal double, which is what
    [numeric_limits<double>::min()] is) becomes 2^-1022, a value above the
    largest finite double becomes that double, and every other value, NaN
    included, is kept. *)
Definition logLoss_clamp_spec (u : float) : float :=
  if u <? 0x1p-1022 then 0x1p-1022
  else if 0x1.fffffffffffffp1023 <? u then 0x1.fffffffffffffp1023
  else u.

(** [logLoss::eval] as the specification words it: keep the entries of
    [y_fit] whose partner in [y] equals 1, take [-log] of each, clamp each,
    add them up, divide by the rows of [y]. *)
Definition logLoss_eval_spec {P : Platform} (y y_fit : mat) : float :=
  let selected :=
    map snd (filter (fun p => fst p =? 1) (combine (mem y) (mem y_fit))) in
  let clamped := map (fun v => logLoss_clamp_spec (- std_log v)) selected in
  let rows := PrimFloat.of_uint63 (Uint63.of_Z (Z.of_nat (n_rows y))) in
  fold_left PrimFloat.add clamped 0 / rows.

(** The element [pseudoHuberLoss::grad] computes from an error [E],
    [E % (1 / sqrt(1 + pow(E/dHuber, 2)))], read in exact real arithmetic. *)
Definition pseudoHuber_grad_exact (dHuber E : R) : R :=
  (E * (1 / R_sqrt.sqrt (1 + (E / dHuber) ^ 2)))%R.

(** The Huber gradient of one error [E], as the specification words it:
    [E] itself where [|E| <= dHuber], otherwise [dHuber * sign(E)]. *)
Definition huber_entry {P : Platform} (dHuber E : float) : float :=
  if PrimFloat.abs E <=? dHuber then E else dHuber * sign1 E.

(** The names [createLoss] knows. *)
Definition recognized (ty : string) : bool :=
  String.eqb ty "log" || String.eqb ty "squared" || String.eqb ty "absolute"
  || String.eqb ty "huber" || String.eqb ty "pseudoHuber".

(** The Huber loss of one error [e], as the specification words it: with
    [a = |e|], half the square of [a] where [a <= dHuber], otherwise
    [dHuber * (a - dHuber/2)]. *)
Definition huber_term {P : Platform} (dHuber e : float) : float :=
  let a := PrimFloat.abs e in
  if a <=? dHuber then std_pow a 2 / 2 else dHuber * (a - dHuber / 2).

(** A binary64 value that is not below zero: its sign bit is clear, or it
    is NaN. *)
Definition sf_not_negative (x : spec_float) : Prop :=
  match x with
  | S754_zero false | S754_infinity false | S754_finite false _ _ | S754_nan => True
  | _ => False
  end.

(** ** Collaborators and platforms to run the code on

    None of these belongs to the two translation units; they stand in for
    the linked libraries and for the external Activation and Optimizer
    classes wherever a statement is evaluated on concrete data. *)

(** A libm whose [pow] squares with one rounding at exponent 2 and whose
    [log] has the Annex F value at 0 and is exact at 1; elsewhere [log] is
    the first-order stand-in [x - 1]. *)
Definition sample_log (x : float) : float :=
  if x =? 0 then neg_infinity else if x <? 0 then nan else x - 1.

Definition sample_pow (x p : float) : float :=
  if p =? 2 then x * x else nan.

(** An Armadillo whose [sign] gives 0 at NaN ... *)
Definition platform_sign0 : Platform :=
  {| std_log := sample_log; std_pow := sample_pow; sign_of_nan := 0 |}.

(** ... and one whose [sign] hands NaN through. *)
Definition platform_signnan : Platform :=
  {| std_log := sample_log; std_pow := sample_pow; sign_of_nan := nan |}.

(** The identity activation. *)
Definition linear : Activation :=
  {| eval := fun Zm => Zm; grad := map_mat (fun _ => 1) |}.

(** Plain gradient descent with a fixed learning rate (the optimizer's
    state): [W - lr * D.t() * A_prev.t()] and [b - lr * D.t() * ones]. *)
Definition sgd_updateW (lr : float) (Wm D A_prev_ : mat) : result mat * float :=
  (G <- mul (t D) (t A_prev_) ;; minus Wm (scalar_times lr G), lr).

Definition sgd_updateb (lr : float) (bm D : mat) : result mat * float :=
  (G <- mul (t D) (Mat (n_rows D) 1 (repeat 1 (n_rows D))) ;;
   minus bm (scalar_times lr G), lr).

#[local] Instance sgd : Optimizer float :=
  {| updateW := sgd_updateW; updateb := sgd_updateb |}.

(** An optimizer that hands the parameters back unchanged. *)
#[local] Instance frozen : Optimizer unit :=
  {| updateW := fun o Wm _ _ => (Ok Wm, o);
     updateb := fun o bm _ => (Ok bm, o) |}.

(** Data to run the layer on: a layer with 3 inputs and 2 outputs, a batch
    of 4 samples, and an error signal for it. *)
Definition sample_W : mat := Mat 2 3 [1; 4; 2; 5; 3; 6].
Definition sample_b : mat := Mat 2 1 [0.5; -0.5].
Definition sample_X : mat := Mat 3 4 [1; 0; 0; 0; 1; 0; 0; 0; 1; 1; 1; 1].
Definition sample_E : mat := Mat 4 2 [1; 0; 0; 0; 0; 1; 0; 0].

(** The layer right after construction, with gradient descent at rate 0.5. *)
Definition sample_layer : @Layer.Layer float :=
  {| Layer.n_nodes := 2; Layer.W := sample_W; Layer.b := sample_b;
     Layer.A_prev := Arma.empty; Layer.Z := Arma.empty;
     Layer.O := 0.5; Layer.g := linear |}.

(** A layer with no output node, as [Layer(3, 0, ...)] builds it, with the
    optimizer that changes nothing. *)
Definition sample_layer_0 : @Layer.Layer unit :=
  {| Layer.n_nodes := 0; Layer.W := Mat 0 3 []; Layer.b := Mat 0 1 [];
     Layer.A_prev := Arma.empty; Layer.Z := Arma.empty;
     Layer.O := tt; Layer.g := linear |}.

(** The sample layer after [forward(sample_X)], and what gradient descent
    returns for [sample_E]. *)
Definition sample_layer_1 : @Layer.Layer float :=
  snd (Layer.forward sample_X sample_layer).
Definition sample_D : mat := Mat 4 2 [1; 0; 0; 0; 0; 1; 0; 0].
Definition sample_W' : mat := Mat 2 3 [0.5; 4; 2; 4.5; 3; 6].
Definition sample_b' : mat := Mat 2 1 [0; -1].

(** Targets and predictions to run the losses on: one-hot targets for two
    samples, and predictions that hit, miss and overshoot. *)
Definition sample_y : mat := Mat 2 2 [1; 0; 0; 1].
Definition sample_y_fit : mat := Mat 2 2 [1; 3.5; -1; 0].

(** Configurations for the factory. *)
Definition sample_config : Rcpp.List :=
  [("type", Rcpp.STRSXP ["huber"]); ("dHuber", Rcpp.REALSXP [1.5])].
Definition config_without_dHuber : Rcpp.List :=
  [("type", Rcpp.STRSXP ["huber"])].
Definition config_bogus : Rcpp.List :=
  [("type", Rcpp.STRSXP ["bogus"])].





(* ================================================================== *)
(** * Part II. Facts about binary64 arithmetic and about arrays *)
(* ================================================================== *)

(** ** Binary64

    Each fact goes through the specification of the primitive operations
    ([Prim2SF] and the [SF] functions of the standard library). *)

Module F64.
Open Scope float_scope.

Lemma SF_one : Prim2SF 1 = S754_finite false pos2_52 (-52).
Proof. reflexivity. Qed.

Lemma SF_mone : Prim2SF (-1) = S754_finite true pos2_52 (-52).
Proof. reflexivity. Qed.

Lemma shr52 (p : positive) :
  SpecFloat.iter_pos shr_1 52 (Build_shr_record (Zpos (pos2_52 * p)) false false)
  = Build_shr_record (Zpos p) false false.
Proof. reflexivity. Qed.

Lemma digits52 (p : positive) :
  digits2_pos (pos2_52 * p) = (digits2_pos p + 52)%positive.
Proof.
  change (digits2_pos (pos2_52 * p)) with (Pos.iter Pos.succ (digits2_pos p) 52).
  cbv [Pos.iter]. lia.
Qed.

Lemma round_times_one s m e :
  SpecFloat.bounded prec emax m e = true ->
  binary_round_aux prec emax s (Zpos (m * pos2_52)) (e + -52) loc_Exact
  = S754_finite s m e.
Proof.
  unfold SpecFloat.bounded, canonical_mantissa. intros Hb.
  apply andb_prop in Hb. destruct Hb as [Hc He].
  apply Z.eqb_eq in Hc.
  rewrite Pos.mul_comm.
  unfold binary_round_aux.
  assert (H1 : shr_fexp prec emax (Z.pos (pos2_52 * m)) (e + -52) loc_Exact
               = (Build_shr_record (Zpos m) false false, e)).
  { unfold shr_fexp. cbn [Zdigits2]. rewrite digits52.
    replace (Z.pos (digits2_pos m + 52) + (e + -52))%Z with (Z.pos (digits2_pos m) + e)%Z by lia.
    rewrite Hc. replace (e - (e + -52))%Z with 52%Z by lia.
    cbn [shr shr_record_of_loc]. rewrite shr52. f_equal. lia. }
  rewrite H1. cbn [shr_m loc_of_shr_record round_nearest_even].
  assert (H2 : shr_fexp prec emax (Z.pos m) e loc_Exact
               = (Build_shr_record (Zpos m) false false, e)).
  { unfold shr_fexp. cbn [Zdigits2]. rewrite Hc. rewrite Z.sub_diag. reflexivity. }
  rewrite H2. cbn [shr_m]. rewrite He. reflexivity.
Qed.

Lemma mul_one_r (d : float) : d * 1 = d.
Proof.
  apply Prim2SF_inj. rewrite mul_spec, SF_one.
  pose proof (Prim2SF_valid d) as Hv.
  destruct (Prim2SF d) as [s|s| |s m e]; cbn.
  - now destruct s.
  - now destruct s.
  - reflexivity.
  - cbn in Hv. rewrite xorb_false_r. now apply round_times_one.
Qed.

Lemma mul_mone_r (d : float) : d * (-1) = - d.
Proof.
  apply Prim2SF_inj. rewrite mul_spec, opp_spec, SF_mone.
  pose proof (Prim2SF_valid d) as Hv.
  destruct (Prim2SF d) as [s|s| |s m e]; cbn.
  - now destruct s.
  - now destruct s.
  - reflexivity.
  - cbn in Hv. rewrite xorb_true_r. now apply round_times_one.
Qed.

Lemma sub_diag (x : float) : is_finite x = true -> x - x = 0.
Proof.
  unfold is_finite, is_nan, is_infinity. rewrite !eqb_spec, abs_spec.
  intros Hf. apply Prim2SF_inj. rewrite sub_spec.
  change (Prim2SF infinity) with (S754_infinity false) in Hf.
  change (Prim2SF 0) with (S754_zero false).
  destruct (Prim2SF x) as [s|s| |s m e].
  - now destruct s.
  - now destruct s.
  - discriminate.
  - unfold SF64sub, SFsub. rewrite Z.sub_diag. reflexivity.
Qed.


(** *** Comparisons *)

Lemma SFcompare_refl x : x <> S754_nan -> SFcompare x x = Some Eq.
Proof.
  destruct x as [s|s| |s m e]; intros H; try congruence; cbn.
  - reflexivity.
  - now destruct s.
  - destruct s; rewrite Z.compare_refl, Pos.compare_cont_refl; reflexivity.
Qed.

Lemma SFcompare_antisym x y :
  SFcompare y x = option_map CompOpp (SFcompare x y).
Proof.
  destruct x as [s1|s1| |s1 m1 e1], y as [s2|s2| |s2 m2 e2]; cbn;
    try reflexivity;
    try (destruct s1; reflexivity); try (destruct s2; reflexivity);
    try (destruct s1, s2; reflexivity).
  destruct s1, s2; cbn; try reflexivity;
    rewrite (Z.compare_antisym e1 e2); destruct (e1 ?= e2)%Z; cbn; try reflexivity;
    rewrite (Pos.compare_cont_antisym m1 m2 Eq); reflexivity.
Qed.

Lemma is_nan_spec x : is_nan x = false <-> Prim2SF x <> S754_nan.
Proof.
  unfold is_nan. rewrite eqb_spec. unfold SFeqb. split.
  - intros H E. rewrite E in H. discriminate.
  - intros H. now rewrite SFcompare_refl.
Qed.

Lemma ltb_false_leb x y :
  is_nan x = false -> is_nan y = false -> (x <? y) = false -> (y <=? x) = true.
Proof.
  rewrite !is_nan_spec, ltb_spec, leb_spec. unfold SFltb, SFleb.
  intros Hx Hy. rewrite (SFcompare_antisym (Prim2SF x) (Prim2SF y)).
  destruct (SFcompare (Prim2SF x) (Prim2SF y)) as [[| |]|] eqn:E; cbn; try congruence.
  exfalso. destruct (Prim2SF x), (Prim2SF y); cbn in E; try congruence.
Qed.

Lemma ltb_leb x y : (x <? y) = true -> (x <=? y) = true.
Proof.
  rewrite ltb_spec, leb_spec. unfold SFltb, SFleb.
  now destruct (SFcompare _ _) as [[| |]|].
Qed.

Lemma leb_refl x : is_nan x = false -> (x <=? x) = true.
Proof.
  rewrite is_nan_spec, leb_spec. unfold SFleb. intros H. now rewrite SFcompare_refl.
Qed.

Lemma ltb_not_nan_r x y : (x <? y) = true -> is_nan y = false.
Proof.
  rewrite is_nan_spec, ltb_spec. unfold SFltb. intros H E. rewrite E in H.
  now destruct (Prim2SF x).
Qed.

Lemma leb_not_nan_l x y : (x <=? y) = true -> is_nan x = false.
Proof.
  rewrite is_nan_spec, leb_spec. unfold SFleb. intros H E. now rewrite E in H.
Qed.

(** A positive double: finite and positive, or +infinity. *)
Lemma pos_spec d :
  (0 <? d) = true <->
  (exists m e, Prim2SF d = S754_finite false m e) \/ Prim2SF d = S754_infinity false.
Proof.
  rewrite ltb_spec. change (Prim2SF 0) with (S754_zero false). unfold SFltb.
  split.
  - destruct (Prim2SF d) as [s|s| |s m e]; cbn; try discriminate.
    + destruct s; [discriminate|]. now right.
    + destruct s; [discriminate|]. left. now exists m, e.
  - intros [[m [e ->]]| ->]; reflexivity.
Qed.

Lemma zero_div_pos d : (0 <? d) = true -> 0 / d = 0.
Proof.
  intros H. apply pos_spec in H. apply Prim2SF_inj. rewrite div_spec.
  change (Prim2SF 0) with (S754_zero false).
  destruct H as [[m [e ->]]| ->]; reflexivity.
Qed.

Lemma abs_pos d : (0 <? d) = true -> PrimFloat.abs d = d.
Proof.
  intros H. apply pos_spec in H. apply Prim2SF_inj. rewrite abs_spec.
  destruct H as [[m [e ->]]| ->]; reflexivity.
Qed.

Lemma abs_opp d : PrimFloat.abs (- d) = PrimFloat.abs d.
Proof.
  apply Prim2SF_inj. rewrite !abs_spec, opp_spec.
  now destruct (Prim2SF d).
Qed.

Lemma mul_comm x y : x * y = y * x.
Proof.
  apply Prim2SF_inj. rewrite !mul_spec.
  destruct (Prim2SF x) as [s1|s1| |s1 m1 e1], (Prim2SF y) as [s2|s2| |s2 m2 e2];
    cbn; try reflexivity; try (now rewrite xorb_comm).
  now rewrite xorb_comm, Pos.mul_comm, Z.add_comm.
Qed.


(** *** Rounding a positive integer never gives zero *)

Lemma iter_pos_nat {A : Type} (f : A -> A) (n : positive) :
  forall x, SpecFloat.iter_pos f n x = Nat.iter (Pos.to_nat n) f x.
Proof.
  induction n as [n IH|n IH|]; intros x; cbn [SpecFloat.iter_pos].
  - rewrite !IH, Pos2Nat.inj_xI, <- Nat.iter_succ_r.
    rewrite <- Nat.iter_add. f_equal. lia.
  - rewrite !IH, Pos2Nat.inj_xO, <- Nat.iter_add. f_equal. lia.
  - reflexivity.
Qed.

Lemma iter_shr_1_pos (k : nat) : forall p r s,
  (Z.of_nat k < Zpos (digits2_pos p))%Z ->
  exists p' r' s',
    Nat.iter k shr_1 (Build_shr_record (Zpos p) r s) = Build_shr_record (Zpos p') r' s'.
Proof.
  induction k as [|k IH]; intros p r s Hk.
  - now exists p, r, s.
  - rewrite Nat.iter_succ_r.
    destruct p as [p|p|]; cbn [shr_1 digits2_pos] in *; try (apply IH; lia).
    lia.
Qed.

Lemma shr_fexp_pos m e l :
  (emin <= e)%Z ->
  exists p' r' s' e',
    shr_fexp prec emax (Zpos m) e l = (Build_shr_record (Zpos p') r' s', e')
    /\ (emin <= e')%Z.
Proof.
  intros He. unfold shr_fexp. cbn [Zdigits2].
  assert (Hrec : exists r s, shr_record_of_loc (Zpos m) l = Build_shr_record (Zpos m) r s).
  { destruct l as [|[| |]]; cbn; eauto. }
  destruct Hrec as [r [s ->]].
  assert (Hn : (fexp prec emax (Zpos (digits2_pos m) + e) - e < Zpos (digits2_pos m))%Z
               /\ (emin <= fexp prec emax (Zpos (digits2_pos m) + e))%Z).
  { unfold fexp, SpecFloat.emin, prec, emax in *. lia. }
  destruct Hn as [Hn1 Hn2].
  destruct (fexp prec emax (Zpos (digits2_pos m) + e) - e)%Z as [|q|q] eqn:Eq; cbn [shr].
  - now exists m, r, s, e.
  - rewrite iter_pos_nat.
    destruct (iter_shr_1_pos (Pos.to_nat q) m r s) as [p' [r' [s' ->]]]; [lia|].
    exists p', r', s', (e + Zpos q)%Z. split; [reflexivity|lia].
  - now exists m, r, s, e.
Qed.

Lemma round_nearest_even_pos p l : exists q, round_nearest_even (Zpos p) l = Zpos q.
Proof.
  destruct l as [|[| |]]; cbn [round_nearest_even]; eauto.
  - destruct (Z.even (Zpos p)); eauto. exists (p + 1)%positive. reflexivity.
  - exists (p + 1)%positive. reflexivity.
Qed.

Lemma binary_round_aux_pos m e l :
  (emin <= e)%Z ->
  (exists m' e', binary_round_aux prec emax false (Zpos m) e l = S754_finite false m' e')
  \/ binary_round_aux prec emax false (Zpos m) e l = S754_infinity false.
Proof.
  intros He. unfold binary_round_aux.
  destruct (shr_fexp_pos m e l He) as [p1 [r1 [s1 [e1 [-> He1]]]]].
  cbn [shr_m].
  destruct (round_nearest_even_pos p1 (loc_of_shr_record (Build_shr_record (Zpos p1) r1 s1)))
    as [q ->].
  destruct (shr_fexp_pos q e1 loc_Exact He1) as [p2 [r2 [s2 [e2 [-> He2]]]]].
  cbn [shr_m].
  destruct (e2 <=? emax - prec)%Z; [left|right]; eauto.
Qed.

Lemma binary_normalize_pos (p : positive) :
  (exists m e, binary_normalize prec emax (Zpos p) 0 false = S754_finite false m e)
  \/ binary_normalize prec emax (Zpos p) 0 false = S754_infinity false.
Proof.
  cbn [binary_normalize]. unfold binary_round, shl_align.
  set (fe := fexp prec emax (Zpos (digits2_pos p) + 0)).
  assert (Hfe : (emin <= fe)%Z).
  { unfold fe, fexp, SpecFloat.emin, prec, emax. lia. }
  destruct (fe - 0)%Z; apply binary_round_aux_pos; try assumption;
    unfold SpecFloat.emin, prec, emax; lia.
Qed.

(** A row count between 1 and 2^63 - 1 converts to a positive double. *)
Lemma of_uint63_pos (n : nat) :
  (0 < n)%nat -> (Z.of_nat n < Uint63.wB)%Z ->
  (0 <? of_uint63 (Uint63.of_Z (Z.of_nat n))) = true.
Proof.
  intros Hn Hb. apply pos_spec.
  rewrite of_uint63_spec, Uint63.of_Z_spec, Z.mod_small by lia.
  destruct (Z.of_nat n) as [|p|p] eqn:E; try lia.
  apply binary_normalize_pos.
Qed.

End F64.

(** ** Arrays: [generate], [find], gather and scatter *)

Section ListFacts.

Lemma generate_length r c f : length (generate r c f) = (c * r)%nat.
Proof.
  unfold generate.
  assert (H : forall s, length (flat_map (fun j => map (fun i => f i j) (seq 0 r)) (seq s c))
                        = (c * r)%nat).
  { induction c as [|c IH]; intros s; cbn [seq flat_map]; [reflexivity|].
    rewrite length_app, length_map, length_seq, IH. lia. }
  apply H.
Qed.

Lemma nth_generate_from r f c : forall s i j,
  (i < r)%nat -> (j < c)%nat ->
  nth (i + j * r) (flat_map (fun j => map (fun i => f i j) (seq 0 r)) (seq s c)) 0%float
  = f i (s + j)%nat.
Proof.
  induction c as [|c IH]; intros s i j Hi Hj; [lia|].
  cbn [seq flat_map].
  destruct j as [|j].
  - rewrite app_nth1 by (rewrite length_map, length_seq; lia).
    rewrite Nat.add_0_r.
    rewrite (nth_indep _ 0%float (f 0%nat s)) by (rewrite length_map, length_seq; lia).
    rewrite (map_nth (fun i => f i s) (seq 0 r) 0%nat), seq_nth by lia.
    now rewrite Nat.add_0_r.
  - rewrite app_nth2 by (rewrite length_map, length_seq; lia).
    rewrite length_map, length_seq.
    replace (i + S j * r - r)%nat with (i + j * r)%nat by lia.
    rewrite IH by lia. f_equal. lia.
Qed.

Lemma nth_generate r c f i j :
  (i < r)%nat -> (j < c)%nat ->
  nth (i + j * r) (generate r c f) 0%float = f i j.
Proof. intros. unfold generate. now rewrite nth_generate_from. Qed.

Lemma find_from_bound bs : forall k i,
  In i (find_from k bs) -> (k <= i < k + length bs)%nat.
Proof.
  induction bs as [|b bs IH]; intros k i; cbn; [tauto|].
  destruct b; cbn; intros H.
  - destruct H as [<-|H]; [lia|]. apply IH in H. lia.
  - apply IH in H. lia.
Qed.

Lemma in_find_from bs : forall k i,
  In i (find_from k bs) <-> (k <= i)%nat /\ nth (i - k) bs false = true.
Proof.
  induction bs as [|b bs IH]; intros k i; cbn [find_from].
  - split; [intros []|]. intros [_ H]. now destruct (i - k)%nat.
  - assert (Hs : forall j, (S k <= j)%nat -> nth (j - k) (b :: bs) false = nth (j - S k) bs false).
    { intros j Hj. replace (j - k)%nat with (S (j - S k)) by lia. reflexivity. }
    destruct b; cbn [In]; rewrite IH.
    + split.
      * intros [<-|[H1 H2]]; [split; [lia|now rewrite Nat.sub_diag]|].
        split; [lia|]. now rewrite Hs.
      * intros [H1 H2]. destruct (Nat.eq_dec k i) as [->|Hne]; [now left|right].
        split; [lia|]. rewrite <- Hs; [assumption|lia].
    + split.
      * intros [H1 H2]. split; [lia|]. now rewrite Hs.
      * intros [H1 H2]. destruct (Nat.eq_dec k i) as [->|Hne].
        -- rewrite Nat.sub_diag in H2. discriminate.
        -- split; [lia|]. rewrite <- Hs; [assumption|lia].
Qed.

Lemma set_nth_length i v l : length (set_nth i v l) = length l.
Proof.
  revert i; induction l as [|x l IH]; intros [|i]; cbn; auto.
Qed.

Lemma nth_set_nth l : forall i j v,
  (i < length l)%nat ->
  nth j (set_nth i v l) 0%float = if Nat.eqb j i then v else nth j l 0%float.
Proof.
  induction l as [|x l IH]; intros i j v Hi; cbn in Hi; [lia|].
  destruct i as [|i], j as [|j]; cbn; try reflexivity.
  apply IH. lia.
Qed.

(** Storing, at each listed position, the element a source array has there. *)
Lemma nth_scatter (src : list float) (idx : list nat) : forall (l : list float) j,
  Forall (fun i => i < length l)%nat idx ->
  nth j (fold_left (fun l p => set_nth (fst p) (snd p) l)
                   (combine idx (map (fun i => nth i src 0%float) idx)) l) 0%float
  = if existsb (Nat.eqb j) idx then nth j src 0%float else nth j l 0%float.
Proof.
  induction idx as [|i idx IH]; intros l j Hall; cbn; [reflexivity|].
  inversion Hall as [|? ? Hi Hrest]; subst.
  rewrite IH.
  2:{ rewrite set_nth_length. assumption. }
  rewrite nth_set_nth by assumption.
  destruct (Nat.eqb j i) eqn:Hji; cbn.
  - apply Nat.eqb_eq in Hji; subst. now destruct (existsb _ idx).
  - reflexivity.
Qed.

Lemma scatter_length (idx : list nat) (vs : list float) : forall l,
  length (fold_left (fun l p => set_nth (fst p) (snd p) l) (combine idx vs) l)
  = length l.
Proof.
  revert vs; induction idx as [|i idx IH]; intros [|v vs] l; cbn; try reflexivity.
  now rewrite IH, set_nth_length.
Qed.

Lemma existsb_find (bs : list bool) j :
  existsb (Nat.eqb j) (find bs) = nth j bs false.
Proof.
  destruct (nth j bs false) eqn:Hn.
  - apply existsb_exists. exists j. split; [|apply Nat.eqb_refl].
    apply in_find_from. rewrite Nat.sub_0_r. split; [lia|assumption].
  - destruct (existsb _ _) eqn:He; [|reflexivity].
    apply existsb_exists in He. destruct He as [i [Hin Heq]].
    apply Nat.eqb_eq in Heq; subst i.
    apply in_find_from in Hin. rewrite Nat.sub_0_r in Hin. destruct Hin; congruence.
Qed.

Lemma find_in_bounds (bs : list bool) (n : nat) :
  (length bs <= n)%nat -> forallb (fun i => Nat.ltb i n) (find bs) = true.
Proof.
  intros Hl. apply forallb_forall. intros i Hi.
  apply find_from_bound in Hi. apply Nat.ltb_lt. lia.
Qed.

(** Reading the flagged positions of an array is filtering it by the flags. *)
Lemma gather_find_from (f : float -> bool) (xs : list float) :
  forall (pre ys : list float),
  length xs = length ys ->
  map (fun i => nth i (pre ++ ys) 0%float) (find_from (length pre) (map f xs))
  = map snd (filter (fun p => f (fst p)) (combine xs ys)).
Proof.
  induction xs as [|x xs IH]; intros pre ys Hl; [reflexivity|].
  destruct ys as [|y ys]; [discriminate|]. cbn in Hl.
  cbn [map find_from combine filter fst].
  specialize (IH (pre ++ [y]) ys).
  rewrite length_app, Nat.add_1_r in IH. cbn [length] in IH.
  rewrite <- app_assoc in IH. cbn [app] in IH.
  destruct (f x); cbn [fst map snd].
  - rewrite IH by lia. f_equal.
    rewrite app_nth2 by lia. now rewrite Nat.sub_diag.
  - now rewrite IH by lia.
Qed.

(** Element-wise maps, element by element. *)
Lemma nth_zip (f : float -> float -> float) (xs ys : list float) (i : nat) :
  length xs = length ys -> (i < length xs)%nat ->
  nth i (map (fun p => f (fst p) (snd p)) (combine xs ys)) 0
  = f (nth i xs 0) (nth i ys 0).
Proof.
  revert ys i. induction xs as [|x xs IH]; intros [|y ys] i Hl Hi; cbn in *; try lia.
  destruct i as [|i]; [reflexivity|]. apply IH; lia.
Qed.

Lemma zip_length (f : float -> float -> float) (xs ys : list float) :
  length xs = length ys ->
  length (map (fun p => f (fst p) (snd p)) (combine xs ys)) = length xs.
Proof. intros H. rewrite length_map, length_combine. lia. Qed.

Lemma nth_map_float (f : float -> float) (l : list float) (i : nat) :
  (i < length l)%nat -> nth i (map f l) 0 = f (nth i l 0).
Proof.
  intros Hi. rewrite (nth_indep _ 0 (f 0)) by now rewrite length_map.
  apply map_nth.
Qed.

Lemma nth_map_flag (f : float -> bool) (l : list float) (i : nat) :
  (i < length l)%nat -> nth i (map f l) false = f (nth i l 0).
Proof.
  intros Hi. rewrite (nth_indep _ false (f 0)) by now rewrite length_map.
  apply map_nth.
Qed.

End ListFacts.

(* ================================================================== *)
(** * Part III. Layer *)
(* ================================================================== *)

Section LayerFacts.
Context {OptState : Type} {Opt : Optimizer OptState}.
Import Layer.

Local Abbreviation Layer := (@Layer.Layer OptState).

(** The two method bodies, with the sequencing unfolded: which exception
    leaves the object in which state. *)
Lemma forward_run (X : mat) (L : Layer) :
  forward X L =
  match mul (W L) X with
  | Throw e => (Throw e, set_A_prev X L)
  | Ok WX =>
      match each_col_plus WX (b L) with
      | Throw e => (Throw e, set_Z WX (set_A_prev X L))
      | Ok Zb => (Ok (eval (g L) Zb), set_Z Zb (set_A_prev X L))
      end
  end.
Proof.
  unfold forward, seq_, assign, this, expr, ret. cbn.
  destruct (mul (W L) X) as [WX|e]; [|reflexivity].
  destruct (each_col_plus WX (b L)); reflexivity.
Qed.

Lemma backward_run (E : mat) (L : Layer) :
  backward E L =
  match schur E (t (grad (g L) (Z L))) with
  | Throw e => (Throw e, L)
  | Ok D =>
      match updateW (O L) (W L) D (A_prev L) with
      | (Throw e, o1) => (Throw e, set_O o1 L)
      | (Ok W', o1) =>
          match updateb o1 (b L) D with
          | (Throw e, o2) => (Throw e, set_O o2 (set_W W' L))
          | (Ok b', o2) => (mul D W', set_b b' (set_O o2 (set_W W' L)))
          end
      end
  end.
Proof.
  unfold backward, seq_, assign, this, expr, call_O. cbn.
  destruct (schur E (t (grad (g L) (Z L)))) as [D|e]; [|reflexivity].
  destruct (updateW (O L) (W L) D (A_prev L)) as [[W'|e] o1]; [|reflexivity].
  cbn. destruct (updateb o1 (b L) D) as [[b'|e] o2]; reflexivity.
Qed.

(** Case analysis along [backward]: the product, then the two calls on
    the optimizer. *)
Ltac backward_cases E L :=
  let D := fresh "D" in
  let o1 := fresh "o1" in
  destruct (schur E (t (grad (g L) (Z L)))) as [D|?];
  [ destruct (updateW (O L) (W L) D (A_prev L)) as [[?W'|?] o1];
    [ destruct (updateb o1 (b L) D) as [[?b'|?] ?o2] | ]
  | ].

Lemma at_generate (r c : nat) (f : nat -> nat -> float) (i j : nat) :
  (i < r)%nat -> (j < c)%nat -> at_ (Mat r c (generate r c f)) i j = f i j.
Proof. intros Hi Hj. unfold at_. cbn [n_rows mem]. now apply nth_generate. Qed.

(** The inner product of a row with a column is the sum of the products
    of their elements, added up from 0 along the shared index. *)
Lemma dot_maps (f h : nat -> float) (l : list nat) : forall acc,
  fold_left (fun a p => a + fst p * snd p) (combine (map f l) (map h l)) acc
  = fold_left (fun a k => a + f k * h k) l acc.
Proof.
  induction l as [|k l IH]; intros acc; [reflexivity|].
  cbn [map combine fold_left fst snd]. apply IH.
Qed.

Lemma dot_row_col (A B : mat) (i j : nat) :
  n_cols A = n_rows B ->
  dot (row A i) (col B j)
  = fold_left
      (fun a k => a + nth (i + k * n_rows A) (mem A) 0
                      * nth (k + j * n_rows B) (mem B) 0)
      (seq 0 (n_cols A)) 0.
Proof.
  intros H. unfold dot, row, col. rewrite H.
  exact (dot_maps (fun k => at_ A i k) (fun k => at_ B k j) _ 0).
Qed.

(** C2. For a layer whose [W] is nodes_out x nodes_in and whose [b] is a
    column of nodes_out elements, and for an input [X] of nodes_in x batch,
    [forward(X)] returns normally: it stores [X] in [A_prev], stores in [Z]
    the nodes_out x batch matrix [W * X + b] and returns [g->eval(Z)].
    Element (i, j) of [Z], which the column-major array holds at
    [i + j * nodes_out], is the sum over k of [W(i, k) * X(k, j)] with [b(i)]
    added: the bias goes to every column. *)
Theorem forward_computes (L : Layer) (X : mat) (nodes_out nodes_in batch : nat) :
  n_rows (W L) = nodes_out -> n_cols (W L) = nodes_in ->
  n_rows (b L) = nodes_out -> n_cols (b L) = 1%nat ->
  n_rows X = nodes_in -> n_cols X = batch ->
  exists Zv : mat,
    forward X L = (Ok (eval (g L) Zv), set_Z Zv (set_A_prev X L))
    /\ A_prev (snd (forward X L)) = X
    /\ Z (snd (forward X L)) = Zv
    /\ n_rows Zv = nodes_out /\ n_cols Zv = batch /\ wf Zv
    /\ forall i j, (i < nodes_out)%nat -> (j < batch)%nat ->
         nth (i + j * nodes_out) (mem Zv) 0
         = fold_left
             (fun a k => a + nth (i + k * nodes_out) (mem (W L)) 0
                             * nth (k + j * nodes_in) (mem X) 0)
             (seq 0 nodes_in) 0
           + nth i (mem (b L)) 0.
Proof.
  intros HWr HWc Hbr Hbc HXr HXc.
  assert (HWX : n_cols (W L) = n_rows X) by congruence.
  rewrite forward_run. unfold mul.
  rewrite HWc, HXr, Nat.eqb_refl. unfold each_col_plus. cbn [n_rows n_cols].
  rewrite Hbr, HWr, Hbc, Nat.eqb_refl, HXc. cbn [andb Nat.eqb].
  eexists. split; [reflexivity|]. cbn [snd A_prev Z set_Z set_A_prev n_rows n_cols].
  repeat split.
  - unfold wf. cbn [mem n_rows n_cols]. rewrite generate_length. lia.
  - intros i j Hi Hj. cbn [mem].
    rewrite (nth_generate nodes_out batch) by assumption.
    rewrite at_generate by assumption.
    rewrite (dot_row_col (W L) X i j HWX), HWr, HWc, HXr.
    unfold at_. rewrite Hbr. cbn [Nat.mul]. now rewrite Nat.add_0_r.
Qed.

(** The element-wise product with a transpose, element by element. *)
Lemma schur_t_entries (E G D : mat) :
  wf E -> schur E (t G) = Ok D ->
  n_rows D = n_rows E /\ n_cols D = n_cols E
  /\ n_rows E = n_cols G /\ n_cols E = n_rows G
  /\ forall i j, (i < n_rows E)%nat -> (j < n_cols E)%nat ->
       at_ D i j = at_ E i j * at_ G j i.
Proof.
  unfold schur, zip_mat, wf. intros HE.
  destruct (same_size E (t G)) eqn:Hs; [|discriminate].
  intros H. apply (f_equal (fun r => match r with Ok m => m | Throw _ => E end)) in H.
  subst D. cbn [n_rows n_cols].
  unfold same_size in Hs. apply andb_prop in Hs. destruct Hs as [Hr Hc].
  apply Nat.eqb_eq in Hr, Hc. cbn [t n_rows n_cols] in Hr, Hc.
  repeat split; try assumption.
  intros i j Hi Hj. unfold at_ at 1. cbn [n_rows mem].
  assert (Hk : (i + j * n_rows E < n_rows E * n_cols E)%nat) by nia.
  rewrite (nth_zip PrimFloat.mul).
  - f_equal. unfold t. cbn [mem]. rewrite Hr.
    now rewrite (nth_generate (n_cols G) (n_rows G) (fun i j => at_ G j i)) by lia.
  - unfold t. cbn [mem]. rewrite generate_length. lia.
  - lia.
Qed.

(** C1. After [forward(X)] has returned, [backward(E)] forms
    [D = E % g->grad(Z).t()] from the [Z] that call cached (element (i, j)
    of [D] is [E(i, j)] times element (j, i) of [g->grad(Z)]), hands [W],
    [D] and the cached [X] to [updateW] and then [b], [D] to [updateb],
    stores what they return in [W] and [b], and returns [D * W] with the
    matrix [updateW] has just returned. *)
Theorem backward_after_forward
  (L L1 : Layer) (X A E D W' b' : mat) (o1 o2 : OptState) :
  wf E ->
  forward X L = (Ok A, L1) ->
  schur E (t (grad (g L1) (Z L1))) = Ok D ->
  updateW (O L1) (W L1) D (A_prev L1) = (Ok W', o1) ->
  updateb o1 (b L1) D = (Ok b', o2) ->
  (A_prev L1 = X
   /\ (exists WX, mul (W L) X = Ok WX /\ each_col_plus WX (b L) = Ok (Z L1))
   /\ A = eval (g L) (Z L1))
  /\ (forall i j, (i < n_rows E)%nat -> (j < n_cols E)%nat ->
        at_ D i j = at_ E i j * at_ (grad (g L1) (Z L1)) j i)
  /\ backward E L1 = (mul D W', set_b b' (set_O o2 (set_W W' L1)))
  /\ W (snd (backward E L1)) = W' /\ b (snd (backward E L1)) = b'.
Proof.
  intros HE Hf HD HW Hb. split; [|split].
  - rewrite forward_run in Hf.
    destruct (mul (W L) X) as [WX|e]; [|discriminate].
    destruct (each_col_plus WX (b L)) as [Zb|e] eqn:Hz; [|discriminate].
    apply (f_equal snd) in Hf as HL. apply (f_equal fst) in Hf as HA.
    cbn [fst snd] in HL, HA. subst L1. cbn. split; [reflexivity|].
    split; [now exists WX|].
    apply (f_equal (fun r => match r with Ok m => m | Throw _ => A end)) in HA.
    now subst A.
  - now apply (schur_t_entries E (grad (g L1) (Z L1)) D HE HD).
  - rewrite backward_run, HD, HW, Hb. cbn. auto.
Qed.

(** C9. [forward] changes no member other than the caches [A_prev] and
    [Z]: [W], [b] and the optimizer are as before, whether it returns or
    throws.  [backward] changes no member other than [W], [b] and the
    optimizer; it leaves [W] as it was unless [updateW] returned a matrix,
    which then is the new [W], and likewise [b] with [updateb]. *)
Theorem parameters_change_only_in_backward (L : Layer) (X E : mat) :
  (snd (forward X L)
   = set_Z (Z (snd (forward X L))) (set_A_prev (A_prev (snd (forward X L))) L)
   /\ W (snd (forward X L)) = W L
   /\ b (snd (forward X L)) = b L
   /\ O (snd (forward X L)) = O L)
  /\ snd (backward E L)
     = set_b (b (snd (backward E L)))
         (set_O (O (snd (backward E L))) (set_W (W (snd (backward E L))) L))
  /\ match schur E (t (grad (g L) (Z L))) with
     | Throw _ => W (snd (backward E L)) = W L /\ b (snd (backward E L)) = b L
     | Ok D =>
         match updateW (O L) (W L) D (A_prev L) with
         | (Throw _, _) =>
             W (snd (backward E L)) = W L /\ b (snd (backward E L)) = b L
         | (Ok W', o1) =>
             W (snd (backward E L)) = W'
             /\ match updateb o1 (b L) D with
                | (Throw _, _) => b (snd (backward E L)) = b L
                | (Ok b', _) => b (snd (backward E L)) = b'
                end
         end
     end.
Proof.
  rewrite forward_run, backward_run. split; [|split].
  - destruct (mul (W L) X) as [WX|e]; [|now cbn].
    destruct (each_col_plus WX (b L)); now cbn.
  - backward_cases E L; try now cbn. now destruct L.
  - backward_cases E L; now cbn.
Qed.

(** C3, as the code has it.  [backward] makes no check of its own that a
    [forward] came first.  On a layer fresh from the constructor, whose
    activation maps the empty matrix to the empty matrix, [backward(E)]
    with any [E] other than 0x0 stops at the element-wise product with
    Armadillo's [std::logic_error] for incompatible dimensions, before the
    optimizer is called and with the layer unchanged. *)
Theorem backward_on_fresh_layer (L : Layer) (E : mat) :
  fresh L ->
  grad (g L) Arma.empty = Arma.empty ->
  n_rows E <> 0%nat \/ n_cols E <> 0%nat ->
  backward E L =
  (Throw (logic_error
            "element-wise multiplication: incompatible matrix dimensions"), L).
Proof.
  intros [_ HZ] Hg HE. rewrite backward_run, HZ, Hg.
  unfold schur, zip_mat, same_size. cbn [t Arma.empty n_rows n_cols].
  destruct (n_rows E) as [|r]; [|reflexivity].
  destruct (n_cols E) as [|c]; [|reflexivity].
  destruct HE; congruence.
Qed.

End LayerFacts.

Lemma forward_computes_witness :
  (n_rows (Layer.W sample_layer) = 2%nat /\ n_cols (Layer.W sample_layer) = 3%nat
   /\ n_rows sample_X = 3%nat /\ n_cols sample_X = 4%nat)
  /\ Layer.forward sample_X sample_layer
     = (Ok (Mat 2 4 [1.5; 3.5; 2.5; 4.5; 3.5; 5.5; 6.5; 14.5]),
        Layer.set_Z (Mat 2 4 [1.5; 3.5; 2.5; 4.5; 3.5; 5.5; 6.5; 14.5])
          (Layer.set_A_prev sample_X sample_layer))
  /\ exists Zv : mat,
       Layer.forward sample_X sample_layer
       = (Ok (eval linear Zv), Layer.set_Z Zv (Layer.set_A_prev sample_X sample_layer))
       /\ Layer.A_prev (snd (Layer.forward sample_X sample_layer)) = sample_X
       /\ Layer.Z (snd (Layer.forward sample_X sample_layer)) = Zv
       /\ n_rows Zv = 2%nat /\ n_cols Zv = 4%nat /\ wf Zv
       /\ forall i j, (i < 2)%nat -> (j < 4)%nat ->
            nth (i + j * 2) (mem Zv) 0
            = fold_left
                (fun a k => a + nth (i + k * 2) (mem sample_W) 0
                                * nth (k + j * 3) (mem sample_X) 0)
                (seq 0 3) 0
              + nth i (mem sample_b) 0.
Proof.
  split; [repeat split|]. split; [reflexivity|].
  apply (forward_computes sample_layer sample_X 2 3 4); reflexivity.
Defined.

Lemma backward_after_forward_witness :
  Layer.backward sample_E sample_layer_1
  = (Ok (Mat 4 3 [0.5; 4; 0; 0; 2; 4.5; 0; 0; 3; 6; 0; 0]),
     Layer.set_b sample_b' (Layer.set_O 0.5 (Layer.set_W sample_W' sample_layer_1)))
  /\ mul sample_D sample_W = Ok (Mat 4 3 [1; 4; 0; 0; 2; 5; 0; 0; 3; 6; 0; 0]).
Proof.
  split; [|reflexivity].
  refine (proj1 (proj2 (proj2 (backward_after_forward
            sample_layer sample_layer_1 sample_X
            (Mat 2 4 [1.5; 3.5; 2.5; 4.5; 3.5; 5.5; 6.5; 14.5])
            sample_E sample_D sample_W' sample_b' 0.5 0.5 _ _ _ _ _))));
    reflexivity.
Defined.

Lemma backward_on_fresh_layer_witness :
  Layer.fresh sample_layer
  /\ Layer.backward sample_E sample_layer
     = (Throw (logic_error
                 "element-wise multiplication: incompatible matrix dimensions"),
        sample_layer).
Proof.
  split; [split; reflexivity|].
  apply (backward_on_fresh_layer sample_layer sample_E).
  - split; reflexivity.
  - reflexivity.
  - left. discriminate.
Defined.

(** C3 as the specification states it fails.  A layer with no output node
    is fresh, and [backward] on it with the empty error matrix returns a
    0x3 matrix.  And on an ordinary fresh layer the exception is the very
    one a correctly ordered call with an ill-shaped [E] raises, not an
    error of its own kind. *)
Lemma backward_without_forward_returns :
  (Layer.fresh sample_layer_0
   /\ Layer.backward Arma.empty sample_layer_0 = (Ok (Mat 0 3 []), sample_layer_0))
  /\ fst (Layer.backward sample_E sample_layer)
     = fst (Layer.backward (Mat 3 2 [1; 0; 0; 0; 1; 0]) sample_layer_1).
Proof. repeat split. Qed.

(* ================================================================== *)
(** * Part IV. The loss family *)
(* ================================================================== *)

(** ** Shapes *)

Lemma same_size_length (a b : mat) :
  same_size a b = true -> wf a -> wf b -> length (mem a) = length (mem b).
Proof.
  unfold same_size, wf. intros H Ha Hb.
  apply andb_prop in H. destruct H as [Hr Hc].
  apply Nat.eqb_eq in Hr, Hc. congruence.
Qed.

Lemma same_size_sym (a b : mat) : same_size a b = same_size b a.
Proof. unfold same_size. now rewrite (Nat.eqb_sym (n_rows a)), (Nat.eqb_sym (n_cols a)). Qed.

Lemma minus_ok (a b : mat) :
  same_size a b = true ->
  minus a b = Ok (Mat (n_rows a) (n_cols a)
                      (map (fun p => fst p - snd p) (combine (mem a) (mem b)))).
Proof. intros H. unfold minus, zip_mat. now rewrite H. Qed.

(** ** C4: the factory *)

(** C4, as the code has it.  For a configuration whose [type] is the
    string [ty], the factory is built and [createLoss] returns a new
    [logLoss], [squaredLoss] or [absoluteLoss] object for "log", "squared",
    "absolute"; for "huber" and "pseudoHuber" it returns a new object of
    that class holding [dHuber], provided the configuration carries
    [dHuber] as one number; for any other string it returns the null
    pointer and throws nothing.  The [squaredLoss] object's [eval] is the
    sum of [pow(y_fit - y, 2)] over all elements divided by the rows of
    [y], and its [grad] is [2 * (y_fit - y)]. *)
Theorem createLoss_cases {P : Platform} (cfg : Rcpp.List) (ty : string) :
  Rcpp.get cfg "type" = Ok (Rcpp.STRSXP [ty]) ->
  exists f : lossFactory.lossFactory,
    lossFactory.new cfg = Ok f
    /\ lossFactory.type f = ty /\ lossFactory.loss_param f = cfg
    /\ (ty = "log" -> lossFactory.createLoss f = Ok (Some new_logLoss))
    /\ (ty = "squared" -> lossFactory.createLoss f = Ok (Some new_squaredLoss))
    /\ (ty = "absolute" -> lossFactory.createLoss f = Ok (Some new_absoluteLoss))
    /\ (forall d, ty = "huber" ->
          Rcpp.get cfg "dHuber" = Ok (Rcpp.REALSXP [d]) ->
          lossFactory.createLoss f = Ok (Some (new_huberLoss d)))
    /\ (forall d, ty = "pseudoHuber" ->
          Rcpp.get cfg "dHuber" = Ok (Rcpp.REALSXP [d]) ->
          lossFactory.createLoss f = Ok (Some (new_pseudoHuberLoss d)))
    /\ (recognized ty = false -> lossFactory.createLoss f = Ok None)
    /\ (forall y y_fit, same_size y_fit y = true ->
          loss_eval new_squaredLoss y y_fit
          = Ok (fold_left PrimFloat.add
                  (map (fun p => std_pow (fst p - snd p) 2)
                       (combine (mem y_fit) (mem y))) 0
                / of_uword (n_rows y))
          /\ loss_grad new_squaredLoss y y_fit
             = Ok (Mat (n_rows y_fit) (n_cols y_fit)
                       (map (fun p => 2 * (fst p - snd p))
                            (combine (mem y_fit) (mem y))))).
Proof.
  intros Hty. unfold lossFactory.new. rewrite Hty. cbn.
  eexists. split; [reflexivity|]. cbn [lossFactory.type lossFactory.loss_param].
  unfold lossFactory.createLoss. cbn [lossFactory.type lossFactory.loss_param].
  repeat split.
  - now intros ->.
  - now intros ->.
  - now intros ->.
  - intros d -> Hd. cbn. unfold huberLoss.new. now rewrite Hd.
  - intros d -> Hd. cbn. unfold pseudoHuberLoss.new. now rewrite Hd.
  - unfold recognized. intros H.
    repeat (apply orb_false_elim in H; destruct H as [H ?]).
    now repeat match goal with Hx : String.eqb _ _ = false |- _ => rewrite Hx; clear Hx end.
  - cbn [loss_eval]. unfold squaredLoss.eval. rewrite minus_ok by assumption.
    cbn. unfold accu, pow, map_mat. cbn [mem]. now rewrite map_map.
  - cbn [loss_grad]. unfold squaredLoss.grad. rewrite minus_ok by assumption.
    cbn. unfold scalar_times, map_mat. cbn [mem n_rows n_cols]. rewrite map_map.
    do 2 f_equal. apply map_ext. intros p. apply F64.mul_comm.
Qed.

(** ** C5: the log loss *)

Lemma clamp_range (x : float) :
  is_nan x = false ->
  (DBL_MIN <=? clamp1 DBL_MIN DBL_MAX x) = true
  /\ (clamp1 DBL_MIN DBL_MAX x <=? DBL_MAX) = true.
Proof.
  intros Hx. unfold clamp1.
  destruct (x <? DBL_MIN) eqn:Hlo; [split; reflexivity|].
  destruct (DBL_MAX <? x) eqn:Hhi; [split; reflexivity|].
  split; apply F64.ltb_false_leb; auto.
Qed.

(** The floor is positive: a zero or negative [-log] is raised to it. *)
Example clamp_floor_is_positive :
  (0 <? DBL_MIN) = true
  /\ clamp1 DBL_MIN DBL_MAX 0 = DBL_MIN
  /\ clamp1 DBL_MIN DBL_MAX (-0.5) = DBL_MIN
  /\ clamp1 DBL_MIN DBL_MAX infinity = DBL_MAX
  /\ clamp1 DBL_MIN DBL_MAX nan = nan.
Proof. repeat split. Qed.

Lemma gather_where (f : float -> bool) (y y_fit : mat) :
  length (mem y) = length (mem y_fit) ->
  elem y_fit (find (map f (mem y)))
  = Ok (Mat (length (find (map f (mem y)))) 1
            (map snd (filter (fun p => f (fst p)) (combine (mem y) (mem y_fit))))).
Proof.
  intros Hl. unfold elem, in_bounds, n_elem.
  rewrite find_in_bounds by (rewrite length_map; lia).
  do 2 f_equal. unfold find.
  now rewrite <- (gather_find_from f (mem y) [] (mem y_fit) Hl).
Qed.

Lemma leb_ltb_false (x y : float) : (x <=? y) = true -> (y <? x) = false.
Proof.
  rewrite leb_spec, ltb_spec. unfold SFleb, SFltb.
  rewrite (F64.SFcompare_antisym (Prim2SF x) (Prim2SF y)).
  now destruct (SFcompare (Prim2SF x) (Prim2SF y)) as [[| |]|].
Qed.

Lemma is_nan_true (u : float) : is_nan u = true -> Prim2SF u = S754_nan.
Proof.
  intros H. destruct (Prim2SF u) eqn:E; try reflexivity;
    (assert (Hf : is_nan u = false) by (apply F64.is_nan_spec; congruence));
    congruence.
Qed.

(** No double lies above the largest finite one and below the smallest
    positive normal one. *)
Lemma above_max_not_below_min (u : float) :
  (0x1.fffffffffffffp1023 <? u) = true -> (u <? 0x1p-1022) = false.
Proof.
  intros H. destruct (u <? 0x1p-1022) eqn:Hlo; [|reflexivity]. exfalso.
  apply F64.ltb_leb in H, Hlo. rewrite leb_spec in H, Hlo.
  change (Prim2SF 0x1p-1022) with (S754_finite false 4503599627370496 (-1074)) in Hlo.
  change (Prim2SF 0x1.fffffffffffffp1023)
    with (S754_finite false 9007199254740991 971) in H.
  destruct (Prim2SF u) as [s|s| |s m e]; try discriminate;
    try (destruct s; discriminate).
  destruct s; [discriminate|].
  unfold SFleb, SFcompare in H, Hlo.
  destruct (Z.compare_spec 971 e) as [E1|E1|E1];
    destruct (Z.compare_spec e (-1074)) as [E2|E2|E2];
    try discriminate; lia.
Qed.

(** What the written-out clamp does with each kind of value. *)
Lemma logLoss_clamp_spec_cases (u : float) :
  ((u <? 0x1p-1022) = true -> logLoss_clamp_spec u = 0x1p-1022)
  /\ ((0x1.fffffffffffffp1023 <? u) = true ->
      logLoss_clamp_spec u = 0x1.fffffffffffffp1023)
  /\ ((0x1p-1022 <=? u) = true -> (u <=? 0x1.fffffffffffffp1023) = true ->
      logLoss_clamp_spec u = u)
  /\ (is_nan u = true -> logLoss_clamp_spec u = u)
  /\ (is_nan u = false ->
      (0x1p-1022 <=? logLoss_clamp_spec u) = true
      /\ (logLoss_clamp_spec u <=? 0x1.fffffffffffffp1023) = true).
Proof.
  unfold logLoss_clamp_spec. repeat split.
  - now intros ->.
  - intros H. now rewrite (above_max_not_below_min u H), H.
  - intros Hlo Hhi. now rewrite (leb_ltb_false _ _ Hlo), (leb_ltb_false _ _ Hhi).
  - intros Hn. apply is_nan_true in Hn.
    rewrite ltb_spec, (ltb_spec 0x1.fffffffffffffp1023 u), Hn.
    unfold SFltb, SFcompare.
    now destruct (Prim2SF 0x1.fffffffffffffp1023).
  - destruct (u <? 0x1p-1022) eqn:Hlo; [reflexivity|].
    destruct (0x1.fffffffffffffp1023 <? u) eqn:Hhi; [reflexivity|].
    now apply F64.ltb_false_leb.
  - destruct (u <? 0x1p-1022) eqn:Hlo; [reflexivity|].
    destruct (0x1.fffffffffffffp1023 <? u) eqn:Hhi; [reflexivity|].
    now apply F64.ltb_false_leb.
Qed.

(** C5, as the code has it.  For [y] and [y_fit] of one shape,
    [logLoss::eval] returns normally, and what it returns is the
    computation the specification words: the entries of [y_fit] whose
    partner in [y] equals 1, [-log] of each, each clamped, summed, divided
    by the rows of [y].  The clamp raises a value below 2^-1022 to 2^-1022,
    lowers a value above the largest finite double to that double, and
    keeps every value in between and NaN.  So every clamped value that is
    not NaN lies between the two bounds, and [-log(0)], which is +infinity,
    becomes the largest finite double.  Nothing is said of the sum, which
    can overflow, nor of a NaN, which goes through. *)
Theorem logLoss_eval_refines {P : Platform} (y y_fit : mat) :
  same_size y y_fit = true -> wf y -> wf y_fit ->
  logLoss.eval y y_fit = Ok (logLoss_eval_spec y y_fit)
  /\ (forall u,
        ((u <? 0x1p-1022) = true -> logLoss_clamp_spec u = 0x1p-1022)
        /\ ((0x1.fffffffffffffp1023 <? u) = true ->
            logLoss_clamp_spec u = 0x1.fffffffffffffp1023)
        /\ ((0x1p-1022 <=? u) = true -> (u <=? 0x1.fffffffffffffp1023) = true ->
            logLoss_clamp_spec u = u)
        /\ (is_nan u = true -> logLoss_clamp_spec u = u)
        /\ (is_nan u = false ->
            (0x1p-1022 <=? logLoss_clamp_spec u) = true
            /\ (logLoss_clamp_spec u <=? 0x1.fffffffffffffp1023) = true))
  /\ (AnnexF P -> logLoss_clamp_spec (- std_log 0) = 0x1.fffffffffffffp1023).
Proof.
  intros Hs Hy Hf. split; [|split].
  - pose proof (same_size_length y y_fit Hs Hy Hf) as Hl.
    unfold logLoss.eval, eq_scalar. rewrite (gather_where _ y y_fit Hl).
    cbn [bind]. unfold clamp.
    change (DBL_MAX <? DBL_MIN) with false. cbn [bind].
    unfold logLoss_eval_spec, accu, neg, log, map_mat. cbn [mem].
    now rewrite !map_map.
  - apply logLoss_clamp_spec_cases.
  - intros A. rewrite log_zero. reflexivity.
Qed.

(** ** Armadillo's [sign] on one element *)

Lemma zero_trichotomy (x : float) :
  is_nan x = false -> (0 <? x) || (x <? 0) || (x =? 0) = true.
Proof.
  intros Hx. apply F64.is_nan_spec in Hx.
  rewrite !ltb_spec, eqb_spec.
  change (Prim2SF 0) with (S754_zero false).
  destruct (Prim2SF x) as [s|s| |s m e]; try congruence; now destruct s.
Qed.

Lemma sign1_not_nan {P : Platform} (x : float) :
  is_nan x = false -> sign1 x = 1 \/ sign1 x = -1 \/ sign1 x = 0.
Proof.
  intros Hx. apply zero_trichotomy in Hx. unfold sign1.
  destruct (0 <? x); [now left|].
  destruct (x <? 0); [now right; left|].
  destruct (x =? 0); [now right; right|discriminate].
Qed.

Lemma sign1_zero {P : Platform} : sign1 0 = 0.
Proof. reflexivity. Qed.

(** Where [|E|] equals a positive [d], [E] is [d] or [-d]. *)
Lemma abs_eqb_pos (d E : float) :
  (0 <? d) = true -> (PrimFloat.abs E =? d) = true ->
  (E = d /\ (0 <? E) = true)
  \/ (E = - d /\ (0 <? E) = false /\ (E <? 0) = true).
Proof.
  intros Hd. apply F64.pos_spec in Hd.
  rewrite eqb_spec, abs_spec, !ltb_spec.
  change (Prim2SF 0) with (S754_zero false).
  assert (Hinj : forall s : bool,
             Prim2SF E = (if s then SFopp (Prim2SF d) else Prim2SF d) ->
             if s then E = - d else E = d).
  { intros [|] H; apply Prim2SF_inj; [rewrite opp_spec|]; exact H. }
  destruct Hd as [[m [e Hd]]|Hd]; rewrite Hd in *;
    destruct (Prim2SF E) as [s|s| |s m' e'] eqn:HE; cbn; try discriminate.
  - destruct (e' ?= e)%Z eqn:He; try discriminate.
    destruct (Pos.compare_cont Eq m' m) eqn:Hm; try discriminate.
    apply Z.compare_eq in He. apply Pcompare_Eq_eq in Hm. subst. intros _.
    destruct s; [right; split; [exact (Hinj true eq_refl)|auto]
                |left; split; [exact (Hinj false eq_refl)|auto]].
  - intros _.
    destruct s; [right; split; [exact (Hinj true eq_refl)|auto]
                |left; split; [exact (Hinj false eq_refl)|auto]].
Qed.

Lemma huber_branches_agree {P : Platform} (d E : float) :
  (0 <? d) = true -> (PrimFloat.abs E =? d) = true -> d * sign1 E = E.
Proof.
  intros Hd HE. unfold sign1.
  destruct (abs_eqb_pos d E Hd HE) as [[-> ->]|[-> [-> ->]]].
  - apply F64.mul_one_r.
  - apply F64.mul_mone_r.
Qed.

Lemma zero_leb_pos (d E : float) :
  (0 <? d) = true -> (E =? 0) = true -> (PrimFloat.abs E <=? d) = true.
Proof.
  intros Hd. apply F64.pos_spec in Hd.
  rewrite eqb_spec, leb_spec, abs_spec.
  change (Prim2SF 0) with (S754_zero false).
  destruct Hd as [[m [e ->]]| ->];
    destruct (Prim2SF E) as [s|s| |s m' e']; cbn; try discriminate; auto;
    destruct s; discriminate.
Qed.

Lemma huber_entry_bounded {P : Platform} (d E : float) :
  (0 <? d) = true -> is_nan E = false ->
  (PrimFloat.abs (huber_entry d E) <=? d) = true.
Proof.
  intros Hd HE. unfold huber_entry.
  destruct (PrimFloat.abs E <=? d) eqn:Hin; [assumption|].
  assert (Hdd : (PrimFloat.abs d <=? d) = true).
  { rewrite F64.abs_pos by assumption. apply F64.leb_refl.
    now apply (F64.ltb_not_nan_r 0). }
  pose proof (zero_trichotomy E HE) as Ht. unfold sign1.
  destruct (0 <? E) eqn:H1; [now rewrite F64.mul_one_r|].
  destruct (E <? 0) eqn:H2; [now rewrite F64.mul_mone_r, F64.abs_opp|].
  cbn in Ht. rewrite Ht.
  now rewrite (zero_leb_pos d E Hd Ht) in Hin.
Qed.

(** ** C8: the absolute loss *)

(** C8, as the code has it.  For [y] and [y_fit] of one shape, every
    entry of [absoluteLoss::grad] is Armadillo's [sign] of the entry of
    [y_fit - y]; whenever that difference is not NaN the entry is -1, 0 or
    1; and where [y_fit] equals a finite [y] the entry is 0. *)
Theorem absoluteLoss_grad_is_sign {P : Platform} (y y_fit : mat) :
  same_size y y_fit = true -> wf y -> wf y_fit ->
  exists G : mat,
    absoluteLoss.grad y y_fit = Ok G
    /\ n_rows G = n_rows y_fit /\ n_cols G = n_cols y_fit
    /\ length (mem G) = length (mem y_fit)
    /\ forall i, (i < length (mem y_fit))%nat ->
         let E := nth i (mem y_fit) 0 - nth i (mem y) 0 in
         nth i (mem G) 0 = sign1 E
         /\ (is_nan E = false ->
             nth i (mem G) 0 = -1 \/ nth i (mem G) 0 = 0 \/ nth i (mem G) 0 = 1)
         /\ (nth i (mem y_fit) 0 = nth i (mem y) 0 ->
             is_finite (nth i (mem y) 0) = true ->
             nth i (mem G) 0 = 0).
Proof.
  intros Hs Hy Hf.
  pose proof (same_size_length y y_fit Hs Hy Hf) as Hl.
  unfold absoluteLoss.grad. rewrite minus_ok by now rewrite same_size_sym.
  cbn [bind]. eexists. split; [reflexivity|].
  unfold sign, map_mat. cbn [n_rows n_cols mem].
  split; [reflexivity|]. split; [reflexivity|].
  split. { rewrite length_map. apply zip_length. lia. }
  intros i Hi. cbv zeta. set (E := nth i (mem y_fit) 0 - nth i (mem y) 0).
  assert (HG : nth i (map sign1 (map (fun p => fst p - snd p)
                                     (combine (mem y_fit) (mem y)))) 0 = sign1 E).
  { rewrite nth_map_float by (rewrite zip_length; lia).
    now rewrite (nth_zip PrimFloat.sub) by lia. }
  rewrite HG. split; [reflexivity|]. split.
  - intros HE. destruct (sign1_not_nan E HE) as [H|[H|H]]; rewrite H; auto.
  - intros Heq Hfin. unfold E. rewrite Heq, F64.sub_diag by assumption.
    reflexivity.
Qed.

(** ** Storing under a mask *)

Lemma find_Forall (bs : list bool) (n : nat) :
  (length bs <= n)%nat -> Forall (fun i => i < n)%nat (find bs).
Proof.
  intros Hl. apply Forall_forall. intros i Hi.
  apply find_from_bound in Hi. lia.
Qed.

Lemma scatter_find (flags : list bool) (src l : list float) (j : nat) :
  length flags = length src -> length l = length src ->
  nth j (fold_left (fun l p => set_nth (fst p) (snd p) l)
                   (combine (find flags) (map (fun i => nth i src 0) (find flags))) l) 0
  = if nth j flags false then nth j src 0 else nth j l 0.
Proof.
  intros Hf Hl. rewrite nth_scatter by (apply find_Forall; lia).
  now rewrite existsb_find.
Qed.

(** [dst.elem(find(flags)) = h(src.elem(find(flags)))], element by element. *)
Lemma masked_store (h : float -> float) (flags : list bool) (src dst : mat) :
  length flags = length (mem src) -> length (mem dst) = length (mem src) ->
  exists l' : list float,
    (EiE <- elem src (find flags) ;; set_elem dst (find flags) (map_mat h EiE))
    = Ok (Mat (n_rows dst) (n_cols dst) l')
    /\ length l' = length (mem dst)
    /\ forall j, (j < length (mem src))%nat ->
         nth j l' 0 = if nth j flags false then h (nth j (mem src) 0)
                      else nth j (mem dst) 0.
Proof.
  intros Hf Hl. unfold elem, in_bounds, n_elem.
  rewrite find_in_bounds by lia. cbn [bind].
  unfold set_elem, in_bounds, n_elem, map_mat. cbn [mem n_rows n_cols].
  rewrite !length_map, Nat.eqb_refl. cbn [negb].
  rewrite find_in_bounds by lia.
  eexists. split; [reflexivity|]. split; [apply scatter_length|].
  intros j Hj.
  assert (Hv : map h (map (fun i => nth i (mem src) 0) (find flags))
               = map (fun i => nth i (map h (mem src)) 0) (find flags)).
  { rewrite map_map. apply map_ext_in. intros i Hi.
    apply find_from_bound in Hi. rewrite nth_map_float by lia. reflexivity. }
  rewrite Hv, scatter_find by (rewrite ?length_map; lia).
  now rewrite nth_map_float by assumption.
Qed.

(** ** C6 and C10: the Huber gradients *)

Lemma huberLoss_grad_run {P : Platform} (d : float) (y y_fit : mat) :
  same_size y y_fit = true -> wf y -> wf y_fit ->
  exists G : mat,
    huberLoss.grad d y y_fit = Ok G
    /\ n_rows G = n_rows y_fit /\ n_cols G = n_cols y_fit
    /\ length (mem G) = length (mem y_fit)
    /\ forall i, (i < length (mem y_fit))%nat ->
         nth i (mem G) 0 = huber_entry d (nth i (mem y_fit) 0 - nth i (mem y) 0).
Proof.
  intros Hs Hy Hf.
  pose proof (same_size_length y y_fit Hs Hy Hf) as Hl.
  unfold huberLoss.grad. rewrite minus_ok by now rewrite same_size_sym.
  cbn [bind].
  set (es := map (fun p => fst p - snd p) (combine (mem y_fit) (mem y))).
  assert (Hes : length es = length (mem y_fit)) by (apply zip_length; lia).
  set (Em := Mat (n_rows y_fit) (n_cols y_fit) es).
  set (dl := scalar_times d (sign Em)).
  destruct (masked_store (fun x => x) (le_scalar (abs Em) d) Em dl)
    as [l' [Hrun [Hlen Hnth]]].
  { unfold le_scalar, abs, map_mat. cbn [mem]. now rewrite !length_map. }
  { unfold dl, scalar_times, sign, map_mat. cbn [mem]. now rewrite !length_map. }
  assert (Hid : forall m, map_mat (fun x => x) m = m).
  { intros [r c l]. unfold map_mat. cbn. now rewrite map_id. }
  assert (Hrun' : (EiE <- elem Em (find (le_scalar (abs Em) d)) ;;
                   set_elem dl (find (le_scalar (abs Em) d)) EiE)
                  = Ok (Mat (n_rows dl) (n_cols dl) l')).
  { rewrite <- Hrun. destruct (elem Em _); cbn [bind]; [now rewrite Hid|reflexivity]. }
  rewrite Hrun'. eexists. split; [reflexivity|]. cbn [n_rows n_cols mem].
  split; [reflexivity|]. split; [reflexivity|].
  split.
  { rewrite Hlen. unfold dl, scalar_times, sign, map_mat. cbn [mem].
    now rewrite !length_map. }
  intros i Hi. unfold Em in Hnth. cbn [mem] in Hnth. rewrite Hnth by lia.
  unfold dl, scalar_times, sign, le_scalar, abs, Em, map_mat. cbn [mem].
  rewrite nth_map_flag by (rewrite length_map; lia).
  rewrite !nth_map_float by (rewrite ?length_map; lia).
  unfold es. rewrite (nth_zip PrimFloat.sub) by lia.
  unfold huber_entry. now rewrite F64.mul_comm.
Qed.

(** C6.  For [y] and [y_fit] of one shape and [E = y_fit - y], every entry
    of [huberLoss::grad] is [E] where [|E| <= dHuber] and
    [dHuber * sign(E)] otherwise.  For [dHuber > 0] the two formulas agree
    on the boundary [|E| == dHuber], which belongs to the first branch. *)
Theorem huberLoss_grad_entries {P : Platform} (d : float) (y y_fit : mat) :
  same_size y y_fit = true -> wf y -> wf y_fit ->
  (exists G : mat,
     huberLoss.grad d y y_fit = Ok G
     /\ n_rows G = n_rows y_fit /\ n_cols G = n_cols y_fit
     /\ length (mem G) = length (mem y_fit)
     /\ forall i, (i < length (mem y_fit))%nat ->
          let E := nth i (mem y_fit) 0 - nth i (mem y) 0 in
          nth i (mem G) 0 = if PrimFloat.abs E <=? d then E else d * sign1 E)
  /\ ((0 <? d) = true ->
      forall E, (PrimFloat.abs E =? d) = true ->
        (PrimFloat.abs E <=? d) = true /\ d * sign1 E = E).
Proof.
  intros Hs Hy Hf. split.
  - exact (huberLoss_grad_run d y y_fit Hs Hy Hf).
  - intros Hd E HE. split; [|now apply huber_branches_agree].
    rewrite leb_spec. rewrite eqb_spec in HE. unfold SFleb, SFeqb in *.
    now destruct (SFcompare _ _) as [[| |]|].
Qed.

Lemma pseudoHuber_exact_bounded (d E : R) :
  (0 < d)%R -> (Rabs (pseudoHuber_grad_exact d E) <= d)%R.
Proof.
  intros Hd. unfold pseudoHuber_grad_exact.
  set (q := (E / d)%R).
  assert (Hd0 : d <> 0%R) by (apply Rgt_not_eq; exact Hd).
  assert (HE : E = (q * d)%R) by (unfold q; now field).
  assert (Hs : (1 <= R_sqrt.sqrt (1 + q ^ 2))%R).
  { rewrite <- sqrt_1 at 1. apply sqrt_le_1_alt. nra. }
  assert (Hq : (Rabs q <= R_sqrt.sqrt (1 + q ^ 2))%R).
  { rewrite <- sqrt_Rsqr_abs. apply sqrt_le_1_alt. unfold Rsqr. nra. }
  set (s := R_sqrt.sqrt (1 + q ^ 2)) in *.
  rewrite HE at 1.
  assert (Hs0 : s <> 0%R) by (apply Rgt_not_eq; lra).
  replace (q * d * (1 / s))%R with ((q / s) * d)%R by (now field).
  rewrite Rabs_mult, (Rabs_pos_eq d) by lra.
  unfold Rdiv. rewrite Rabs_mult, (Rabs_pos_eq (/ s)).
  2:{ left. apply Rinv_0_lt_compat. lra. }
  assert (Hr : (Rabs q * / s <= 1)%R).
  { apply Rmult_le_reg_r with s; [lra|].
    rewrite Rmult_assoc, Rinv_l by lra. lra. }
  nra.
Qed.

(** C10, as the code has it.  For [dHuber > 0] and [y], [y_fit] of one
    shape, every entry of [huberLoss::grad] whose error [y_fit - y] is not
    NaN has absolute value at most [dHuber].  The pseudo-Huber formula
    [E / sqrt(1 + (E/dHuber)^2)] is bounded by [dHuber] in exact real
    arithmetic, for every real [E]. *)
Theorem huber_gradients_bounded {P : Platform} (d : float) (y y_fit : mat) :
  (0 <? d) = true -> same_size y y_fit = true -> wf y -> wf y_fit ->
  (exists G : mat,
     huberLoss.grad d y y_fit = Ok G
     /\ forall i, (i < length (mem y_fit))%nat ->
          is_nan (nth i (mem y_fit) 0 - nth i (mem y) 0) = false ->
          (PrimFloat.abs (nth i (mem G) 0) <=? d) = true)
  /\ (forall dR E : R, (0 < dR)%R -> (Rabs (pseudoHuber_grad_exact dR E) <= dR)%R).
Proof.
  intros Hd Hs Hy Hf. split.
  - destruct (huberLoss_grad_run d y y_fit Hs Hy Hf) as [G [HG [_ [_ [_ Hnth]]]]].
    exists G. split; [assumption|]. intros i Hi Hnan.
    rewrite Hnth by assumption. now apply huber_entry_bounded.
  - intros dR E. apply pseudoHuber_exact_bounded.
Qed.

(** ** C7: predictions equal to the targets *)

Lemma sub_self_zeros (l : list float) :
  Forall (fun x => is_finite x = true) l ->
  map (fun p => fst p - snd p) (combine l l) = repeat 0 (length l).
Proof.
  induction 1 as [|x l Hx _ IH]; [reflexivity|].
  cbn. now rewrite F64.sub_diag, IH.
Qed.

Lemma minus_self (y : mat) :
  Forall (fun x => is_finite x = true) (mem y) ->
  minus y y = Ok (Mat (n_rows y) (n_cols y) (repeat 0 (length (mem y)))).
Proof.
  intros H. rewrite minus_ok.
  - now rewrite sub_self_zeros.
  - unfold same_size. now rewrite !Nat.eqb_refl.
Qed.

Lemma accu_zeros (r c n : nat) : accu (Mat r c (repeat 0 n)) = 0.
Proof.
  unfold accu. cbn [mem]. induction n as [|n IH]; [reflexivity|exact IH].
Qed.

Lemma zero_div_rows (n : nat) :
  (0 < n)%nat -> (Z.of_nat n < Uint63.wB)%Z -> 0 / of_uword n = 0.
Proof. intros Hn Hb. apply F64.zero_div_pos. now apply F64.of_uint63_pos. Qed.

(** C7, as the code has it.  For a matrix [y] with at least one row
    (and fewer than 2^63), all of whose entries are finite, and for
    [dHuber > 0], the squared, absolute, Huber and pseudo-Huber losses of
    [y] against itself are exactly +0, on a libm with the Annex F values. *)
Theorem exact_fit_has_zero_loss {P : Platform} {A : AnnexF P} (d : float) (y : mat) :
  (0 < n_rows y)%nat -> (Z.of_nat (n_rows y) < Uint63.wB)%Z ->
  Forall (fun x => is_finite x = true) (mem y) ->
  (0 <? d) = true ->
  squaredLoss.eval y y = Ok 0
  /\ absoluteLoss.eval y y = Ok 0
  /\ huberLoss.eval d y y = Ok 0
  /\ pseudoHuberLoss.eval d y y = Ok 0.
Proof.
  intros Hn Hb Hfin Hd.
  pose proof (zero_div_rows (n_rows y) Hn Hb) as Hdiv.
  set (n := length (mem y)).
  repeat split.
  - unfold squaredLoss.eval. rewrite minus_self by assumption. cbn [bind].
    unfold pow, map_mat. cbn [mem n_rows n_cols].
    rewrite map_repeat, pow_zero_two, accu_zeros. now rewrite Hdiv.
  - unfold absoluteLoss.eval. rewrite minus_self by assumption. cbn [bind].
    unfold abs, map_mat. cbn [mem n_rows n_cols].
    rewrite map_repeat.
    change (PrimFloat.abs 0) with 0. rewrite accu_zeros. now rewrite Hdiv.
  - unfold huberLoss.eval. rewrite minus_self by assumption. cbn [bind].
    fold n.
    set (Ea := abs (Mat (n_rows y) (n_cols y) (repeat 0 n))).
    set (dst := scalar_times d (minus_post Ea (d / 2))).
    assert (HEa : mem Ea = repeat 0 n).
    { unfold Ea, abs, map_mat. cbn [mem]. now rewrite map_repeat. }
    assert (Hdst : length (mem dst) = n).
    { unfold dst, scalar_times, minus_post, map_mat. cbn [mem].
      now rewrite !length_map, HEa, repeat_length. }
    destruct (masked_store (fun x => std_pow x 2 / 2) (le_scalar Ea d) Ea dst)
      as [l' [Hrun [Hlen Hnth]]].
    { unfold le_scalar. now rewrite length_map. }
    { now rewrite Hdst, HEa, repeat_length. }
    assert (Hl' : l' = repeat 0 n).
    { apply (nth_ext _ _ 0 0).
      - now rewrite Hlen, Hdst, repeat_length.
      - intros j Hj. rewrite Hlen, Hdst in Hj.
        rewrite HEa, repeat_length in Hnth.
        rewrite Hnth by assumption. unfold le_scalar.
        rewrite nth_map_flag by now rewrite HEa, repeat_length.
        rewrite HEa, !nth_repeat_lt by assumption.
        now rewrite (F64.ltb_leb 0 d Hd), pow_zero_two. }
    revert Hrun.
    destruct (elem Ea (find (le_scalar Ea d))) as [EiE|e]; cbn [bind];
      [|discriminate].
    assert (Hh : map_mat (fun x => std_pow x 2 / 2) EiE = div_post (pow EiE 2) 2).
    { unfold div_post, pow, map_mat. cbn [mem n_rows n_cols]. now rewrite map_map. }
    rewrite <- Hh. intros ->. cbn [bind].
    rewrite Hl', accu_zeros. now rewrite Hdiv.
  - unfold pseudoHuberLoss.eval. rewrite minus_self by assumption. cbn [bind].
    unfold minus_post, sqrt, plus_pre, pow, div_post, map_mat. cbn [mem n_rows n_cols].
    rewrite !map_repeat, (F64.zero_div_pos d Hd), pow_zero_two.
    change (PrimFloat.sqrt (0 + 1) - 1) with 0.
    rewrite accu_zeros. now rewrite Hdiv.
Qed.

(** ** The theorems on concrete data *)

Lemma platform_sign0_AnnexF : AnnexF platform_sign0.
Proof. split; reflexivity. Defined.

Lemma createLoss_cases_witness :
  Rcpp.get sample_config "type" = Ok (Rcpp.STRSXP ["huber"])
  /\ exists f : lossFactory.lossFactory,
       lossFactory.new sample_config = Ok f
       /\ lossFactory.createLoss f = Ok (Some (new_huberLoss 1.5)).
Proof.
  split; [reflexivity|].
  destruct (createLoss_cases (P:=platform_sign0) sample_config "huber" eq_refl)
    as [f [Hnew [_ [_ [_ [_ [_ [Hhuber _]]]]]]]].
  exists f. split; [exact Hnew|]. now apply Hhuber.
Defined.

(** C4 as the specification states it fails.  With [type] equal to
    "huber" and no [dHuber] in the list, [createLoss] does not return a
    loss: the constructor's lookup throws [index_out_of_bounds].  And for
    an unknown [type], [createLoss] throws nothing: it returns the null
    pointer. *)
Lemma createLoss_without_dHuber :
  (exists f : lossFactory.lossFactory,
     lossFactory.new config_without_dHuber = Ok f
     /\ lossFactory.type f = "huber"
     /\ lossFactory.createLoss f = Throw (index_out_of_bounds "dHuber"))
  /\ (exists f : lossFactory.lossFactory,
        lossFactory.new config_bogus = Ok f
        /\ lossFactory.createLoss f = Ok None).
Proof. split; eexists; repeat split. Qed.

Lemma logLoss_eval_refines_witness :
  (same_size sample_y sample_y_fit = true /\ wf sample_y /\ wf sample_y_fit)
  /\ logLoss.eval (P:=platform_sign0) sample_y sample_y_fit
     = Ok 0x1.fffffffffffffp1022
  /\ logLoss_eval_spec (P:=platform_sign0) sample_y sample_y_fit
     = 0x1.fffffffffffffp1022
  /\ logLoss.eval (P:=platform_sign0) sample_y sample_y_fit
     = Ok (logLoss_eval_spec (P:=platform_sign0) sample_y sample_y_fit).
Proof.
  split; [repeat split|]. split; [reflexivity|]. split; [reflexivity|].
  apply (logLoss_eval_refines (P:=platform_sign0) sample_y sample_y_fit);
    reflexivity.
Defined.

(** C5 as the specification states it fails.  With two targets equal to 1
    and both predictions 0, each [-log(0)] is clamped to the largest finite
    double, and their sum overflows: the loss is +infinity.  And the log of
    a negative prediction is NaN, which the clamp lets through: the loss is
    NaN. *)
Lemma logLoss_eval_not_finite :
  logLoss.eval (P:=platform_sign0) (Mat 2 1 [1; 1]) (Mat 2 1 [0; 0]) = Ok infinity
  /\ logLoss.eval (P:=platform_sign0) (Mat 1 1 [1]) (Mat 1 1 [-1]) = Ok nan.
Proof. split; reflexivity. Qed.

(** The overflow needs nothing of libm but the Annex F value of [log(0)]. *)
Lemma logLoss_eval_two_zeros {P : Platform} {A : AnnexF P} :
  logLoss.eval (Mat 2 1 [1; 1]) (Mat 2 1 [0; 0]) = Ok infinity.
Proof.
  unfold logLoss.eval, elem, clamp. cbv [bind eq_scalar find find_from in_bounds
    forallb n_elem mem map length Nat.ltb Nat.leb andb PrimFloat.eqb].
  change (DBL_MAX <? DBL_MIN) with false.
  cbv [nth neg log map_mat map mem n_rows n_cols accu fold_left].
  rewrite log_zero. reflexivity.
Qed.

Lemma huberLoss_grad_entries_witness :
  (same_size sample_y sample_y_fit = true /\ wf sample_y /\ wf sample_y_fit)
  /\ (exists G : mat,
        huberLoss.grad (P:=platform_sign0) 1 sample_y sample_y_fit = Ok G
        /\ n_rows G = 2%nat /\ n_cols G = 2%nat
        /\ length (mem G) = 4%nat
        /\ forall i, (i < 4)%nat ->
             let E := nth i (mem sample_y_fit) 0 - nth i (mem sample_y) 0 in
             nth i (mem G) 0
             = if PrimFloat.abs E <=? 1 then E
               else 1 * sign1 (P:=platform_sign0) E)
  /\ ((0 <? 1) = true ->
      forall E, (PrimFloat.abs E =? 1) = true ->
        (PrimFloat.abs E <=? 1) = true /\ 1 * sign1 (P:=platform_sign0) E = E).
Proof.
  split; [repeat split|].
  apply (huberLoss_grad_entries (P:=platform_sign0) 1 sample_y sample_y_fit);
    reflexivity.
Defined.

Lemma exact_fit_has_zero_loss_witness :
  squaredLoss.eval (P:=platform_sign0) sample_y_fit sample_y_fit = Ok 0
  /\ absoluteLoss.eval sample_y_fit sample_y_fit = Ok 0
  /\ huberLoss.eval (P:=platform_sign0) 1.5 sample_y_fit sample_y_fit = Ok 0
  /\ pseudoHuberLoss.eval (P:=platform_sign0) 1.5 sample_y_fit sample_y_fit = Ok 0.
Proof.
  apply (exact_fit_has_zero_loss (P:=platform_sign0) (A:=platform_sign0_AnnexF)
           1.5 sample_y_fit).
  - cbn. lia.
  - reflexivity.
  - repeat constructor.
  - reflexivity.
Defined.

(** C7 as the specification states it fails.  With an infinite target the
    difference [y - y] is NaN, and so is the loss; with no row at all the
    empty sum is divided by zero. *)
Lemma equal_inputs_nonzero_loss :
  absoluteLoss.eval (Mat 1 1 [infinity]) (Mat 1 1 [infinity]) = Ok nan
  /\ absoluteLoss.eval (Mat 0 3 []) (Mat 0 3 []) = Ok nan
  /\ Ok nan <> Ok 0.
Proof.
  repeat split. intros H.
  apply (f_equal (fun r => match r with Ok x => is_nan x | Throw _ => false end)) in H.
  vm_compute in H. discriminate H.
Qed.

Lemma absoluteLoss_grad_is_sign_witness :
  (same_size sample_y sample_y_fit = true /\ wf sample_y /\ wf sample_y_fit)
  /\ exists G : mat,
       absoluteLoss.grad (P:=platform_signnan) sample_y sample_y_fit = Ok G
       /\ n_rows G = 2%nat /\ n_cols G = 2%nat
       /\ length (mem G) = 4%nat
       /\ forall i, (i < 4)%nat ->
            let E := nth i (mem sample_y_fit) 0 - nth i (mem sample_y) 0 in
            nth i (mem G) 0 = sign1 (P:=platform_signnan) E
            /\ (is_nan E = false ->
                nth i (mem G) 0 = -1 \/ nth i (mem G) 0 = 0 \/ nth i (mem G) 0 = 1)
            /\ (nth i (mem sample_y_fit) 0 = nth i (mem sample_y) 0 ->
                is_finite (nth i (mem sample_y) 0) = true ->
                nth i (mem G) 0 = 0).
Proof.
  split; [repeat split|].
  apply (absoluteLoss_grad_is_sign (P:=platform_signnan) sample_y sample_y_fit);
    reflexivity.
Defined.

(** C8 as the specification states it fails where Armadillo's [sign]
    hands NaN through.  Target and prediction are both +infinity, hence
    equal; their difference is NaN and so is the gradient, which is none of
    -1, 0, 1. *)
Lemma absoluteLoss_grad_nan :
  (infinity =? infinity) = true
  /\ absoluteLoss.grad (P:=platform_signnan) (Mat 1 1 [infinity]) (Mat 1 1 [infinity])
     = Ok (Mat 1 1 [nan])
  /\ nan <> -1 /\ nan <> 0 /\ nan <> 1.
Proof.
  repeat split; intros H; apply (f_equal is_nan) in H;
    vm_compute in H; discriminate H.
Qed.

Lemma huber_gradients_bounded_witness :
  ((0 <? 1) = true /\ same_size sample_y sample_y_fit = true)
  /\ (exists G : mat,
        huberLoss.grad (P:=platform_sign0) 1 sample_y sample_y_fit = Ok G
        /\ forall i, (i < length (mem sample_y_fit))%nat ->
             is_nan (nth i (mem sample_y_fit) 0 - nth i (mem sample_y) 0) = false ->
             (PrimFloat.abs (nth i (mem G) 0) <=? 1) = true)
  /\ (forall dR E : R, (0 < dR)%R -> (Rabs (pseudoHuber_grad_exact dR E) <= dR)%R).
Proof.
  split; [repeat split|].
  apply (huber_gradients_bounded (P:=platform_sign0) 1 sample_y sample_y_fit);
    reflexivity.
Defined.

(** Whatever [pow] returns, an error that overflowed to +infinity makes
    the pseudo-Huber gradient +-infinity or NaN, never a value within
    [dHuber]. *)
Lemma infinity_times_unbounded (x d : float) :
  (PrimFloat.abs (infinity * x) <=? d) = true -> d = infinity.
Proof.
  rewrite leb_spec, abs_spec, mul_spec.
  change (Prim2SF infinity) with (S754_infinity false).
  intros H. apply Prim2SF_inj. change (Prim2SF infinity) with (S754_infinity false).
  destruct (Prim2SF x) as [s|s| |s m e]; cbn in H; try discriminate;
    destruct (Prim2SF d) as [s'|s'| |s' m' e']; cbn in H; try discriminate;
    destruct s'; try discriminate; reflexivity.
Qed.

Lemma pseudoHuber_grad_overflows {P : Platform} :
  exists g : float,
    pseudoHuberLoss.grad 1 (Mat 1 1 [- DBL_MAX]) (Mat 1 1 [DBL_MAX])
    = Ok (Mat 1 1 [g])
    /\ (PrimFloat.abs g <=? 1) = false.
Proof.
  eexists. split; [reflexivity|].
  destruct (PrimFloat.abs _ <=? 1) eqn:H; [|reflexivity].
  apply infinity_times_unbounded in H.
  apply (f_equal is_infinity) in H. vm_compute in H. discriminate H.
Qed.

(** C10 as the specification states it fails for the pseudo-Huber
    gradient in double precision.  With the finite target [-DBL_MAX] and
    prediction [DBL_MAX] the error overflows to +infinity and the gradient
    is NaN; and with ordinary numbers rounding alone puts the gradient one
    unit in the last place above [dHuber]. *)
Lemma pseudoHuber_grad_exceeds :
  (pseudoHuberLoss.grad (P:=platform_sign0) 1 (Mat 1 1 [- DBL_MAX]) (Mat 1 1 [DBL_MAX])
   = Ok (Mat 1 1 [nan])
   /\ (PrimFloat.abs nan <=? 1) = false)
  /\ (pseudoHuberLoss.grad (P:=platform_sign0) 0x1.2fd29f67de166p+3
        (Mat 1 1 [0]) (Mat 1 1 [0x1.46bc30e0f2676p+50])
      = Ok (Mat 1 1 [0x1.2fd29f67de167p+3])
      /\ (PrimFloat.abs 0x1.2fd29f67de167p+3 <=? 0x1.2fd29f67de166p+3) = false).
Proof. repeat split. Qed.

(* ================================================================== *)
(** * Part V. Further properties *)
(* ================================================================== *)

(** ** The layer: construction, shapes and failures *)

Section LayerShapes.
Context {OptState : Type} {Opt : Optimizer OptState}.
Import Layer.

Local Abbreviation Layer := (@Layer.Layer OptState).

Lemma zip_mat_shape (what : string) (f : float -> float -> float) (A B D : mat) :
  zip_mat what f A B = Ok D ->
  n_rows D = n_rows A /\ n_cols D = n_cols A
  /\ n_rows A = n_rows B /\ n_cols A = n_cols B.
Proof.
  unfold zip_mat, same_size.
  destruct (Nat.eqb (n_rows A) (n_rows B)) eqn:Hr; [|discriminate].
  destruct (Nat.eqb (n_cols A) (n_cols B)) eqn:Hc; [|discriminate].
  cbn [andb]. intros H.
  apply (f_equal (fun r => match r with Ok m => m | Throw _ => A end)) in H.
  subst D. apply Nat.eqb_eq in Hr, Hc. now cbn.
Qed.

Lemma zip_mat_mismatch (what : string) (f : float -> float -> float) (A B : mat) :
  n_rows A <> n_rows B \/ n_cols A <> n_cols B ->
  zip_mat what f A B = Throw (logic_error what).
Proof.
  intros H. unfold zip_mat, same_size.
  destruct (Nat.eqb_spec (n_rows A) (n_rows B)) as [Hr|Hr];
    destruct (Nat.eqb_spec (n_cols A) (n_cols B)) as [Hc|Hc];
    try reflexivity.
  destruct H; contradiction.
Qed.

(** The pre-activation a returning [forward] caches has as many rows as
    [W] and as many columns as the input. *)
Lemma forward_Z_shape (L L1 : Layer) (X A : mat) :
  forward X L = (Ok A, L1) ->
  n_rows (Z L1) = n_rows (W L) /\ n_cols (Z L1) = n_cols X /\ g L1 = g L
  /\ n_cols (W L) = n_rows X.
Proof.
  rewrite forward_run. unfold mul.
  destruct (Nat.eqb_spec (n_cols (W L)) (n_rows X)) as [HWX|HWX]; [|discriminate].
  unfold each_col_plus. cbn [n_rows n_cols].
  destruct (_ && _); [|discriminate].
  intros H. apply (f_equal snd) in H. cbn [snd] in H. subst L1.
  now cbn.
Qed.


(** X2. [forward] on an input whose row count is not the column count of
    [W] throws Armadillo's [std::logic_error] for the product, after [X]
    has been stored in [A_prev] and with [Z] still the one of the previous
    call.  On an input that fits [W], with a bias that is not a column as
    tall as [W], it throws at the broadcast, and [Z] then holds [W * X]
    without the bias. *)
Theorem forward_failure_states (L : Layer) (X : mat) :
  (n_rows X <> n_cols (W L) ->
   forward X L
   = (Throw (logic_error "matrix multiplication: incompatible matrix dimensions"),
      set_A_prev X L)
   /\ A_prev (snd (forward X L)) = X /\ Z (snd (forward X L)) = Z L)
  /\ (n_rows X = n_cols (W L) ->
      n_rows (b L) <> n_rows (W L) \/ n_cols (b L) <> 1%nat ->
      exists WX, mul (W L) X = Ok WX
        /\ n_rows WX = n_rows (W L) /\ n_cols WX = n_cols X
        /\ forward X L
           = (Throw (logic_error "each_col(): incompatible size"),
              set_Z WX (set_A_prev X L))).
Proof.
  rewrite forward_run. unfold mul. split.
  - intros H. destruct (Nat.eqb_spec (n_cols (W L)) (n_rows X)) as [E|E];
      [now symmetry in E|]. now cbn.
  - intros H Hb. rewrite H, Nat.eqb_refl.
    eexists. split; [reflexivity|]. cbn [n_rows n_cols]. repeat split.
    unfold each_col_plus. cbn [n_rows n_cols].
    destruct (Nat.eqb_spec (n_rows (b L)) (n_rows (W L))) as [Er|Er];
      destruct (Nat.eqb_spec (n_cols (b L)) 1) as [Ec|Ec];
      try reflexivity.
    destruct Hb; contradiction.
Qed.

(** X3. What [forward] returns does not depend on the caches, and when
    the product [W * X] is defined neither does the state it leaves: the
    caches of an earlier call are overwritten, not merged.  Calling
    [forward] again on the same input changes nothing. *)
Theorem forward_overwrites_caches (L : Layer) (X A0 Z0 : mat) :
  fst (forward X (set_Z Z0 (set_A_prev A0 L))) = fst (forward X L)
  /\ (n_cols (W L) = n_rows X ->
      forward X (set_Z Z0 (set_A_prev A0 L)) = forward X L)
  /\ forward X (snd (forward X L)) = forward X L.
Proof.
  split; [|split].
  - rewrite !forward_run. cbn [W b g set_Z set_A_prev].
    destruct (mul (W L) X) as [WX|e]; [|reflexivity].
    destruct (each_col_plus WX (b L)); reflexivity.
  - rewrite !forward_run. cbn [W b g set_Z set_A_prev].
    unfold mul. intros H. rewrite H, Nat.eqb_refl.
    destruct (each_col_plus _ (b L)); reflexivity.
  - rewrite (forward_run X L).
    destruct (mul (W L) X) as [WX|e] eqn:HWX.
    + destruct (each_col_plus WX (b L)) as [Zb|e] eqn:HZb;
        cbn [snd]; rewrite forward_run; cbn [W b g set_Z set_A_prev];
        rewrite HWX, HZb; reflexivity.
    + cbn [snd]. rewrite forward_run. cbn [W b g set_Z set_A_prev].
      now rewrite HWX.
Qed.

(** X4. After a returning [forward(X)], and with an activation whose
    [grad] keeps the shape of its argument, [backward(E)] gets past the
    element-wise product exactly when [E] has one row per sample and one
    column per output node, that is, the shape of the transpose of what
    [forward] returned.  For any other [E] it throws Armadillo's
    [std::logic_error] and leaves the layer, optimizer included, as it
    was. *)
Theorem backward_wants_transposed_error (L L1 : Layer) (X A E : mat) :
  forward X L = (Ok A, L1) ->
  (forall M, n_rows (grad (g L) M) = n_rows M /\ n_cols (grad (g L) M) = n_cols M) ->
  ((n_rows E = n_cols X /\ n_cols E = n_rows (W L))
   <-> exists D, schur E (t (grad (g L1) (Z L1))) = Ok D)
  /\ (n_rows E <> n_cols X \/ n_cols E <> n_rows (W L) ->
      backward E L1
      = (Throw (logic_error
                  "element-wise multiplication: incompatible matrix dimensions"),
         L1)).
Proof.
  intros Hf Hg. destruct (forward_Z_shape L L1 X A Hf) as [Hr [Hc [HgL _]]].
  rewrite HgL. destruct (Hg (Z L1)) as [Hgr Hgc].
  split; [split|].
  - intros [H1 H2]. unfold schur, zip_mat, same_size, t. cbn [n_rows n_cols].
    rewrite Hgr, Hgc, Hr, Hc, H1, H2, !Nat.eqb_refl. cbn [andb]. eauto.
  - intros [D HD]. apply zip_mat_shape in HD. unfold t in HD.
    cbn [n_rows n_cols] in HD.
    destruct HD as [_ [_ [H1 H2]]]. split; congruence.
  - intros H. rewrite backward_run, HgL. unfold schur.
    rewrite zip_mat_mismatch; [reflexivity|].
    unfold t. cbn [n_rows n_cols]. rewrite Hgr, Hgc, Hr, Hc. exact H.
Qed.

(** X5. When the element-wise product and both calls on the optimizer
    succeed, [backward] returns a matrix exactly if the [W] the optimizer
    handed back has one row per column of [E].  The matrix then has the
    rows of [E] and the columns of that [W], and its element (i, j) is the
    sum over k of [D(i, k) * W(k, j)], accumulated from 0.  Otherwise
    [backward] throws at the final product, with [W] and [b] already
    replaced. *)
Theorem backward_result_entries
  (L : Layer) (E D W' b' : mat) (o1 o2 : OptState) :
  schur E (t (grad (g L) (Z L))) = Ok D ->
  updateW (O L) (W L) D (A_prev L) = (Ok W', o1) ->
  updateb o1 (b L) D = (Ok b', o2) ->
  (n_rows W' = n_cols E ->
   exists G : mat,
     backward E L = (Ok G, set_b b' (set_O o2 (set_W W' L)))
     /\ n_rows G = n_rows E /\ n_cols G = n_cols W' /\ wf G
     /\ forall i j, (i < n_rows E)%nat -> (j < n_cols W')%nat ->
          nth (i + j * n_rows E) (mem G) 0
          = fold_left
              (fun a k => a + nth (i + k * n_rows E) (mem D) 0
                              * nth (k + j * n_rows W') (mem W') 0)
              (seq 0 (n_cols E)) 0)
  /\ (n_rows W' <> n_cols E ->
      backward E L
      = (Throw (logic_error "matrix multiplication: incompatible matrix dimensions"),
         set_b b' (set_O o2 (set_W W' L)))).
Proof.
  intros HD HW Hb. rewrite backward_run, HD, HW, Hb.
  apply zip_mat_shape in HD. destruct HD as [Dr [Dc _]].
  unfold mul. split.
  - intros H. assert (HDW : n_cols D = n_rows W') by congruence.
    rewrite HDW, Nat.eqb_refl. eexists. split; [reflexivity|].
    cbn [n_rows n_cols mem]. rewrite Dr. repeat split.
    + unfold wf. cbn [mem n_rows n_cols]. rewrite generate_length. lia.
    + intros i j Hi Hj.
      rewrite (nth_generate (n_rows E) (n_cols W')) by assumption.
      now rewrite (dot_row_col D W' i j HDW), Dr, Dc.
  - intros H. destruct (Nat.eqb_spec (n_cols D) (n_rows W')) as [E1|E1];
      [|reflexivity]. congruence.
Qed.

End LayerShapes.

(** The layer theorems on concrete data. *)


Lemma forward_failure_states_witness :
  Layer.forward (Mat 2 1 [1; 1]) sample_layer_1
  = (Throw (logic_error "matrix multiplication: incompatible matrix dimensions"),
     Layer.set_A_prev (Mat 2 1 [1; 1]) sample_layer_1)
  /\ Layer.A_prev (snd (Layer.forward (Mat 2 1 [1; 1]) sample_layer_1))
     = Mat 2 1 [1; 1]
  /\ Layer.Z (snd (Layer.forward (Mat 2 1 [1; 1]) sample_layer_1))
     = Mat 2 4 [1.5; 3.5; 2.5; 4.5; 3.5; 5.5; 6.5; 14.5].
Proof.
  exact (proj1 (forward_failure_states sample_layer_1 (Mat 2 1 [1; 1]))
               ltac:(discriminate)).
Defined.

Lemma forward_overwrites_caches_witness :
  Layer.forward sample_X (snd (Layer.forward (Mat 3 1 [1; 2; 3]) sample_layer))
  = Layer.forward sample_X sample_layer
  /\ Layer.Z (snd (Layer.forward (Mat 3 1 [1; 2; 3]) sample_layer))
     = Mat 2 1 [14.5; 31.5]
  /\ Layer.Z (snd (Layer.forward sample_X
                     (snd (Layer.forward (Mat 3 1 [1; 2; 3]) sample_layer))))
     = Mat 2 4 [1.5; 3.5; 2.5; 4.5; 3.5; 5.5; 6.5; 14.5].
Proof.
  split; [|split; reflexivity].
  exact (proj1 (proj2 (forward_overwrites_caches sample_layer sample_X
                         (Mat 3 1 [1; 2; 3]) (Mat 2 1 [14.5; 31.5])))
               eq_refl).
Defined.

Lemma backward_wants_transposed_error_witness :
  Layer.forward sample_X sample_layer
  = (Ok (Mat 2 4 [1.5; 3.5; 2.5; 4.5; 3.5; 5.5; 6.5; 14.5]), sample_layer_1)
  /\ Layer.backward (Mat 2 4 [1; 0; 0; 0; 0; 1; 0; 0]) sample_layer_1
     = (Throw (logic_error
                 "element-wise multiplication: incompatible matrix dimensions"),
        sample_layer_1).
Proof.
  split; [reflexivity|].
  refine (proj2 (backward_wants_transposed_error sample_layer sample_layer_1
                   sample_X (Mat 2 4 [1.5; 3.5; 2.5; 4.5; 3.5; 5.5; 6.5; 14.5])
                   (Mat 2 4 [1; 0; 0; 0; 0; 1; 0; 0]) eq_refl _) _).
  - intros M. split; reflexivity.
  - left. discriminate.
Defined.

Lemma backward_result_entries_witness :
  exists G : mat,
    Layer.backward sample_E sample_layer_1
    = (Ok G, Layer.set_b sample_b' (Layer.set_O 0.5 (Layer.set_W sample_W' sample_layer_1)))
    /\ G = Mat 4 3 [0.5; 4; 0; 0; 2; 4.5; 0; 0; 3; 6; 0; 0]
    /\ n_rows G = 4%nat /\ n_cols G = 3%nat.
Proof.
  assert (HD : schur sample_E (t (grad (Layer.g sample_layer_1)
                                        (Layer.Z sample_layer_1))) = Ok sample_D)
    by reflexivity.
  assert (HW : updateW (Layer.O sample_layer_1) (Layer.W sample_layer_1) sample_D
                 (Layer.A_prev sample_layer_1) = (Ok sample_W', 0.5))
    by reflexivity.
  assert (Hb : updateb 0.5 (Layer.b sample_layer_1) sample_D = (Ok sample_b', 0.5))
    by reflexivity.
  destruct (proj1 (backward_result_entries sample_layer_1 sample_E sample_D
                     sample_W' sample_b' 0.5 0.5 HD HW Hb) eq_refl)
    as [G [HG [Hr [Hc _]]]].
  exists G. split; [exact HG|]. split; [|split; assumption].
  apply (f_equal fst) in HG. cbn [fst] in HG.
  apply (f_equal (fun r => match r with Ok m => m | Throw _ => G end)) in HG.
  symmetry. exact HG.
Defined.

(** ** The loss family: shapes, exact fits and signs *)

Lemma minus_mismatch (a b : mat) :
  same_size a b = false ->
  minus a b = Throw (logic_error "subtraction: incompatible matrix dimensions").
Proof. intros H. unfold minus, zip_mat. now rewrite H. Qed.

Lemma loss_grad_mismatch {P : Platform} (l : loss) (y y_fit : mat) :
  same_size y_fit y = false ->
  loss_grad l y y_fit
  = Throw (logic_error "subtraction: incompatible matrix dimensions").
Proof.
  intros H. apply minus_mismatch in H.
  destruct l; cbn [loss_grad];
    unfold logLoss.grad, squaredLoss.grad, absoluteLoss.grad, huberLoss.grad,
      pseudoHuberLoss.grad; now rewrite H.
Qed.

(** X6. When [y] and [y_fit] differ in shape, [grad] of every loss and
    [eval] of every loss but the log loss throw Armadillo's
    [std::logic_error] for the subtraction [y_fit - y]. *)
Theorem loss_shape_mismatch {P : Platform} (l : loss) (y y_fit : mat) :
  n_rows y_fit <> n_rows y \/ n_cols y_fit <> n_cols y ->
  loss_grad l y y_fit
  = Throw (logic_error "subtraction: incompatible matrix dimensions")
  /\ (l <> new_logLoss ->
      loss_eval l y y_fit
      = Throw (logic_error "subtraction: incompatible matrix dimensions")).
Proof.
  intros H.
  assert (Hs : same_size y_fit y = false).
  { unfold same_size.
    destruct (Nat.eqb_spec (n_rows y_fit) (n_rows y)) as [Hr|Hr];
      destruct (Nat.eqb_spec (n_cols y_fit) (n_cols y)) as [Hc|Hc];
      try reflexivity.
    destruct H; contradiction. }
  split; [now apply loss_grad_mismatch|].
  apply minus_mismatch in Hs.
  destruct l; cbn [loss_eval]; intros Hne; try (now contradiction Hne);
    unfold squaredLoss.eval, absoluteLoss.eval, huberLoss.eval,
      pseudoHuberLoss.eval; now rewrite Hs.
Qed.

Lemma in_bounds_find (f : float -> bool) (y y_fit : mat) :
  in_bounds y_fit (find (map f (mem y))) = true
  <-> forall i, (i < length (mem y))%nat -> f (nth i (mem y) 0) = true ->
                (i < length (mem y_fit))%nat.
Proof.
  unfold in_bounds, n_elem. rewrite forallb_forall. split.
  - intros H i Hi Hf. apply Nat.ltb_lt. apply H.
    apply in_find_from. rewrite Nat.sub_0_r. split; [lia|].
    now rewrite nth_map_flag.
  - intros H i Hin. apply Nat.ltb_lt.
    pose proof (find_from_bound _ _ _ Hin) as Hb. rewrite length_map in Hb.
    apply in_find_from in Hin. rewrite Nat.sub_0_r in Hin. destruct Hin as [_ Hf].
    rewrite nth_map_flag in Hf by lia. apply H; [lia|assumption].
Qed.

(** X7. [logLoss::eval] compares no shapes.  It returns a number whenever
    every position at which [y] holds 1 is a position of [y_fit], whatever
    the two shapes; and it throws Armadillo's bounds error as soon as [y]
    holds 1 at a position beyond the last element of [y_fit]. *)
Theorem logLoss_eval_checks_indices_only {P : Platform} (y y_fit : mat) :
  ((forall i, (i < length (mem y))%nat -> (nth i (mem y) 0 =? 1) = true ->
              (i < length (mem y_fit))%nat) ->
   exists v, logLoss.eval y y_fit = Ok v)
  /\ ((exists i, (i < length (mem y))%nat /\ (nth i (mem y) 0 =? 1) = true
                 /\ (length (mem y_fit) <= i)%nat) ->
      logLoss.eval y y_fit
      = Throw (logic_error "Mat::elem(): index out of bounds")).
Proof.
  unfold logLoss.eval, elem, eq_scalar. split.
  - intros H. apply (in_bounds_find (fun x => x =? 1)) in H. rewrite H.
    cbn [bind]. unfold clamp. change (DBL_MAX <? DBL_MIN) with false.
    cbn [bind]. eauto.
  - intros [i [Hi [Hf Hge]]].
    destruct (in_bounds y_fit (find (map (fun x => x =? 1) (mem y)))) eqn:Hb;
      [|reflexivity].
    pose proof (proj1 (in_bounds_find (fun x => x =? 1) y y_fit) Hb i Hi Hf). lia.
Qed.

Lemma minus_wf (a b : mat) :
  same_size a b = true -> wf a -> wf b ->
  exists es, minus a b = Ok (Mat (n_rows a) (n_cols a) es)
             /\ length es = (n_rows a * n_cols a)%nat
             /\ es = map (fun p => fst p - snd p) (combine (mem a) (mem b)).
Proof.
  intros Hs Ha Hb. eexists. split; [now apply minus_ok|]. split; [|reflexivity].
  rewrite (zip_length PrimFloat.sub) by now apply same_size_length. exact Ha.
Qed.

(** X8. For well-formed [y] and [y_fit], [grad] of every loss returns a
    matrix exactly when the two have one shape, and the matrix it returns
    has the rows and columns of [y_fit]. *)
Theorem grad_returns_shape_of_y_fit {P : Platform} (l : loss) (y y_fit : mat) :
  wf y -> wf y_fit ->
  ((n_rows y = n_rows y_fit /\ n_cols y = n_cols y_fit)
   <-> exists G, loss_grad l y y_fit = Ok G)
  /\ forall G, loss_grad l y y_fit = Ok G ->
       n_rows G = n_rows y_fit /\ n_cols G = n_cols y_fit /\ wf G.
Proof.
  intros Hy Hf.
  assert (Hiff : same_size y y_fit = true
                 <-> (n_rows y = n_rows y_fit /\ n_cols y = n_cols y_fit)).
  { unfold same_size. rewrite andb_true_iff, !Nat.eqb_eq. tauto. }
  destruct (same_size y y_fit) eqn:Hs.
  - assert (Hs' : same_size y_fit y = true) by now rewrite same_size_sym.
    destruct (minus_wf y_fit y Hs' Hf Hy) as [es [Hm [Hlen _]]].
    assert (Hall : exists G, loss_grad l y y_fit = Ok G
                     /\ n_rows G = n_rows y_fit /\ n_cols G = n_cols y_fit /\ wf G).
    { destruct l; cbn [loss_grad].
      - unfold logLoss.grad. rewrite Hm. eexists. now repeat split.
      - unfold squaredLoss.grad. rewrite Hm. cbn [bind]. eexists.
        split; [reflexivity|]. unfold scalar_times, map_mat, wf.
        cbn [n_rows n_cols mem]. now rewrite length_map.
      - unfold absoluteLoss.grad. rewrite Hm. cbn [bind]. eexists.
        split; [reflexivity|]. unfold sign, map_mat, wf.
        cbn [n_rows n_cols mem]. now rewrite length_map.
      - destruct (huberLoss_grad_run dHuber y y_fit Hs Hy Hf)
          as [G [HG [Hr [Hc [Hl _]]]]].
        exists G. repeat split; try assumption. unfold wf. rewrite Hl, Hr, Hc.
        exact Hf.
      - unfold pseudoHuberLoss.grad. rewrite Hm. cbn [bind].
        unfold schur, zip_mat, same_size, div_pre, sqrt, plus_pre, pow, div_post,
          map_mat. cbn [n_rows n_cols mem]. rewrite !Nat.eqb_refl. cbn [andb].
        eexists. split; [reflexivity|]. unfold wf. cbn [n_rows n_cols mem].
        repeat split. rewrite length_map, length_combine, !length_map. lia. }
    destruct Hall as [G [HG Hprops]]. split.
    + split; [intros _; now exists G|intros _; now apply Hiff].
    + intros G' HG'. rewrite HG in HG'.
      apply (f_equal (fun r => match r with Ok m => m | Throw _ => G end)) in HG'.
      now subst G'.
  - assert (Hs' : same_size y_fit y = false) by now rewrite same_size_sym.
    rewrite (loss_grad_mismatch l y y_fit Hs'). split.
    + split; [intros H; apply Hiff in H; discriminate|]. intros [G HG]. discriminate.
    + intros G HG. discriminate.
Qed.

Lemma mat_eq (G : mat) (r c : nat) (l : list float) :
  n_rows G = r -> n_cols G = c -> mem G = l -> G = Mat r c l.
Proof. destruct G. cbn. now intros -> -> ->. Qed.

Lemma zip_repeat (f : float -> float -> float) (a b : float) (n : nat) :
  map (fun p => f (fst p) (snd p)) (combine (repeat a n) (repeat b n))
  = repeat (f a b) n.
Proof.
  induction n as [|n IH]; [reflexivity|].
  cbn [repeat combine map fst snd]. now rewrite IH.
Qed.

(** X9. At an exact fit the gradient vanishes: for a well-formed [y] with
    finite entries only, [grad(y, y)] of every loss (Huber and
    pseudo-Huber with [dHuber > 0]) is the zero matrix of the shape of
    [y], given [pow(0, 2) = 0]. *)
Theorem exact_fit_has_zero_gradient {P : Platform} {A : AnnexF P}
  (l : loss) (y : mat) :
  wf y -> Forall (fun x => is_finite x = true) (mem y) ->
  match l with
  | new_huberLoss d | new_pseudoHuberLoss d => (0 <? d) = true
  | _ => True
  end ->
  loss_grad l y y = Ok (Mat (n_rows y) (n_cols y) (repeat 0 (length (mem y)))).
Proof.
  intros Hy Hfin Hd.
  pose proof (minus_self y Hfin) as Hm.
  destruct l; cbn [loss_grad].
  - exact Hm.
  - unfold squaredLoss.grad. rewrite Hm. cbn [bind].
    unfold scalar_times, map_mat. cbn [n_rows n_cols mem]. now rewrite map_repeat.
  - unfold absoluteLoss.grad. rewrite Hm. cbn [bind].
    unfold sign, map_mat. cbn [n_rows n_cols mem]. now rewrite map_repeat.
  - assert (Hs : same_size y y = true) by (unfold same_size; now rewrite !Nat.eqb_refl).
    destruct (huberLoss_grad_run dHuber y y Hs Hy Hy) as [G [HG [Hr [Hc [Hl Hn]]]]].
    rewrite HG. f_equal. apply mat_eq; try assumption.
    apply (nth_ext _ _ 0 0); [now rewrite repeat_length|].
    intros i Hi. rewrite Hl in Hi. rewrite Hn by assumption.
    rewrite nth_repeat_lt by assumption.
    rewrite F64.sub_diag.
    + unfold huber_entry. change (PrimFloat.abs 0) with 0.
      now rewrite (F64.ltb_leb 0 dHuber Hd).
    + rewrite Forall_forall in Hfin. apply Hfin. now apply nth_In.
  - unfold pseudoHuberLoss.grad. rewrite Hm. cbn [bind].
    unfold schur, zip_mat, same_size, div_pre, sqrt, plus_pre, pow, div_post,
      map_mat. cbn [n_rows n_cols mem]. rewrite !Nat.eqb_refl. cbn [andb].
    rewrite !map_repeat, (F64.zero_div_pos dHuber Hd), pow_zero_two.
    now rewrite (zip_repeat PrimFloat.mul).
Qed.

(** X10. [huberLoss::eval] on [y] and [y_fit] of one shape: the sum, in
    array order from 0, of one term per element, half the square of the
    absolute error where that is at most [dHuber] and
    [dHuber * (|error| - dHuber/2)] elsewhere, divided by the rows of
    [y]. *)
Theorem huberLoss_eval_terms {P : Platform} (d : float) (y y_fit : mat) :
  n_rows y_fit = n_rows y -> n_cols y_fit = n_cols y ->
  huberLoss.eval d y y_fit
  = Ok (fold_left PrimFloat.add
          (map (fun p => huber_term d (fst p - snd p)) (combine (mem y_fit) (mem y)))
          0
        / PrimFloat.of_uint63 (Uint63.of_Z (Z.of_nat (n_rows y)))).
Proof.
  intros Hrows Hcols.
  assert (Hs : same_size y_fit y = true).
  { unfold same_size. now rewrite Hrows, Hcols, !Nat.eqb_refl. }
  unfold huberLoss.eval. rewrite minus_ok by assumption. cbn [bind].
  set (es := map (fun p => fst p - snd p) (combine (mem y_fit) (mem y))).
  set (Ea := abs (Mat (n_rows y_fit) (n_cols y_fit) es)).
  set (dst := scalar_times d (minus_post Ea (d / 2))).
  assert (HEa : mem Ea = map PrimFloat.abs es) by reflexivity.
  assert (Hdst : mem dst = map (fun x => d * (x - d / 2)) (mem Ea)).
  { unfold dst, scalar_times, minus_post, map_mat. cbn [mem]. rewrite map_map.
    apply map_ext. intros x. apply F64.mul_comm. }
  destruct (masked_store (fun x => std_pow x 2 / 2) (le_scalar Ea d) Ea dst)
    as [l' [Hrun [Hlen Hnth]]].
  { unfold le_scalar. now rewrite length_map. }
  { now rewrite Hdst, length_map. }
  assert (Hl' : l' = map (fun p => huber_term d (fst p - snd p))
                         (combine (mem y_fit) (mem y))).
  { assert (Hn : length l' = length es).
    { now rewrite Hlen, Hdst, HEa, !length_map. }
    assert (Hes : map (fun p => huber_term d (fst p - snd p))
                      (combine (mem y_fit) (mem y))
                  = map (huber_term d) es).
    { unfold es. now rewrite map_map. }
    rewrite Hes.
    apply (nth_ext _ _ 0 0).
    - now rewrite Hn, length_map.
    - intros j Hj. rewrite Hn in Hj.
      rewrite Hnth by now rewrite HEa, length_map.
      unfold le_scalar. rewrite nth_map_flag by now rewrite HEa, length_map.
      rewrite Hdst, nth_map_float by now rewrite HEa, length_map.
      rewrite HEa, nth_map_float by assumption.
      rewrite nth_map_float by assumption. reflexivity. }
  revert Hrun.
  destruct (elem Ea (find (le_scalar Ea d))) as [EiE|e]; cbn [bind]; [|discriminate].
  assert (Hh : map_mat (fun x => std_pow x 2 / 2) EiE = div_post (pow EiE 2) 2).
  { unfold div_post, pow, map_mat. cbn [mem n_rows n_cols]. now rewrite map_map. }
  rewrite <- Hh. intros ->. cbn [bind]. unfold accu. cbn [mem]. now rewrite Hl'.
Qed.

(** *** The absolute loss: symmetry and sign *)

Lemma round_aux_abs (s : bool) (m e : Z) (l : location) :
  SFabs (binary_round_aux prec emax s m e l)
  = SFabs (binary_round_aux prec emax false m e l).
Proof.
  unfold binary_round_aux.
  destruct (shr_fexp prec emax m e l) as [mrs e'].
  destruct (shr_fexp prec emax _ e' loc_Exact) as [mrs' e''].
  destruct (shr_m mrs'); try reflexivity.
  now destruct (e'' <=? emax - prec)%Z.
Qed.

Lemma normalize_abs_opp (z e : Z) :
  SFabs (binary_normalize prec emax (- z) e false)
  = SFabs (binary_normalize prec emax z e false).
Proof.
  destruct z as [|p|p]; cbn [Z.opp binary_normalize]; [reflexivity| |];
    unfold binary_round; destruct (shl_align _ _ _) as [mz ez];
    [|symmetry]; apply round_aux_abs.
Qed.

Lemma abs_sub_comm (x y : float) : PrimFloat.abs (x - y) = PrimFloat.abs (y - x).
Proof.
  apply Prim2SF_inj. rewrite !abs_spec, !sub_spec.
  destruct (Prim2SF x) as [s1|s1| |s1 m1 e1], (Prim2SF y) as [s2|s2| |s2 m2 e2];
    try reflexivity; try (destruct s1, s2; reflexivity);
    try (destruct s1; reflexivity); try (destruct s2; reflexivity).
  unfold SF64sub, SFsub. rewrite (Z.min_comm e2 e1).
  rewrite <- normalize_abs_opp. f_equal. f_equal. lia.
Qed.

Lemma zip_abs_sub_comm (xs ys : list float) :
  map PrimFloat.abs (map (fun p => fst p - snd p) (combine xs ys))
  = map PrimFloat.abs (map (fun p => fst p - snd p) (combine ys xs)).
Proof.
  revert ys. induction xs as [|x xs IH]; intros [|y ys]; try reflexivity.
  cbn [combine map fst snd]. now rewrite IH, abs_sub_comm.
Qed.

(** X11. The absolute loss is symmetric in its two arguments, bit for
    bit: [eval(y, y_fit)] and [eval(y_fit, y)] return the same double, or
    throw the same exception. *)
Theorem absoluteLoss_eval_symmetric (y y_fit : mat) :
  absoluteLoss.eval y y_fit = absoluteLoss.eval y_fit y.
Proof.
  unfold absoluteLoss.eval, minus, zip_mat.
  rewrite (same_size_sym y y_fit).
  destruct (same_size y_fit y) eqn:Hs; [|reflexivity].
  cbn [bind]. unfold accu, abs, map_mat. cbn [mem n_rows n_cols].
  rewrite (zip_abs_sub_comm (mem y_fit) (mem y)).
  unfold same_size in Hs. apply andb_prop in Hs. destruct Hs as [Hr _].
  apply Nat.eqb_eq in Hr. now rewrite Hr.
Qed.

Lemma shr_1_nonneg mrs : (0 <= shr_m mrs)%Z -> (0 <= shr_m (shr_1 mrs))%Z.
Proof.
  destruct mrs as [m r s]. cbn [shr_m shr_1]. intros H.
  destruct m as [|[p|p|]|p]; cbn [shr_m]; lia.
Qed.

Lemma shr_fexp_nonneg m e l :
  (0 <= m)%Z -> (0 <= shr_m (fst (shr_fexp prec emax m e l)))%Z.
Proof.
  intros Hm. unfold shr_fexp, shr.
  assert (H0 : (0 <= shr_m (shr_record_of_loc m l))%Z).
  { now destruct l as [|[| |]]. }
  destruct (fexp prec emax (Zdigits2 m + e) - e)%Z as [|q|q]; cbn [fst]; try assumption.
  rewrite F64.iter_pos_nat.
  induction (Pos.to_nat q) as [|k IH]; [assumption|].
  cbn [Nat.iter]. now apply shr_1_nonneg.
Qed.

Lemma round_nearest_even_nonneg m l : (0 <= m)%Z -> (0 <= round_nearest_even m l)%Z.
Proof.
  intros Hm. destruct l as [|[| |]]; cbn [round_nearest_even]; try lia.
  destruct (Z.even m); lia.
Qed.

Lemma round_aux_not_negative m e l :
  (0 <= m)%Z -> sf_not_negative (binary_round_aux prec emax false m e l).
Proof.
  intros Hm. unfold binary_round_aux.
  pose proof (shr_fexp_nonneg m e l Hm) as H1.
  destruct (shr_fexp prec emax m e l) as [mrs e']. cbn [fst] in H1.
  pose proof (shr_fexp_nonneg _ e' loc_Exact
                (round_nearest_even_nonneg _ (loc_of_shr_record mrs) H1)) as H2.
  destruct (shr_fexp prec emax _ e' loc_Exact) as [mrs' e'']. cbn [fst] in H2.
  destruct (shr_m mrs') as [|p|p]; [exact I| |lia].
  now destruct (e'' <=? emax - prec)%Z.
Qed.

Lemma add_not_negative (x y : float) :
  sf_not_negative (Prim2SF x) -> sf_not_negative (Prim2SF y) ->
  sf_not_negative (Prim2SF (x + y)).
Proof.
  rewrite add_spec.
  destruct (Prim2SF x) as [[|]|[|]| |[|] m1 e1], (Prim2SF y) as [[|]|[|]| |[|] m2 e2];
    cbn; try tauto.
  intros _ _. unfold binary_round.
  destruct (shl_align _ _ _) as [mz ez]. now apply round_aux_not_negative.
Qed.

Lemma div_not_negative (x d : float) :
  sf_not_negative (Prim2SF x) -> sf_not_negative (Prim2SF d) ->
  sf_not_negative (Prim2SF (x / d)).
Proof.
  rewrite div_spec.
  destruct (Prim2SF x) as [[|]|[|]| |[|] m1 e1], (Prim2SF d) as [[|]|[|]| |[|] m e];
    cbn [sf_not_negative]; try tauto; intros _ _; try exact I.
  unfold SF64div, SFdiv, SFdiv_core_binary.
  set (m' := match (e1 - e - _)%Z with Z0 => Zpos m1 | Zpos _ => _ | Zneg _ => 0%Z end).
  assert (Hm' : (0 <= m')%Z).
  { unfold m'. destruct (e1 - e - _)%Z; try lia. apply Z.shiftl_nonneg. lia. }
  pose proof (Z.div_pos m' (Zpos m) Hm' eq_refl) as Hq.
  unfold Z.div in Hq. destruct (Z.div_eucl m' (Zpos m)) as [q r]. cbn [xorb].
  now apply round_aux_not_negative.
Qed.

Lemma abs_not_negative (x : float) : sf_not_negative (Prim2SF (PrimFloat.abs x)).
Proof. rewrite abs_spec. now destruct (Prim2SF x). Qed.

Lemma of_uword_not_negative (n : nat) : sf_not_negative (Prim2SF (of_uword n)).
Proof.
  unfold of_uword. rewrite of_uint63_spec.
  pose proof (Uint63.to_Z_bounded (Uint63.of_Z (Z.of_nat n))) as Hb.
  destruct (Uint63.to_Z _) as [|p|p]; cbn [binary_normalize]; [exact I| |lia].
  clear Hb. unfold binary_round. destruct (shl_align _ _ _) as [mz ez].
  apply round_aux_not_negative. apply Pos2Z.is_nonneg.
Qed.

Lemma not_negative_cases (x : float) :
  sf_not_negative (Prim2SF x) -> is_nan x = true \/ (0 <=? x) = true.
Proof.
  intros H. destruct (is_nan x) eqn:Hn; [now left|right].
  apply F64.is_nan_spec in Hn.
  rewrite leb_spec. change (Prim2SF 0) with (S754_zero false).
  destruct (Prim2SF x) as [[|]|[|]| |[|] m e]; try reflexivity;
    contradiction.
Qed.

Lemma sum_not_negative (l : list float) : forall acc,
  sf_not_negative (Prim2SF acc) ->
  Forall (fun x => sf_not_negative (Prim2SF x)) l ->
  sf_not_negative (Prim2SF (fold_left PrimFloat.add l acc)).
Proof.
  induction l as [|x l IH]; intros acc Ha Hl; [assumption|].
  inversion Hl; subst. cbn [fold_left].
  apply IH; [now apply add_not_negative|assumption].
Qed.

(** X12. The absolute loss is never a negative number.  Whatever the
    inputs, [absoluteLoss::eval] either throws the subtraction's
    [std::logic_error] (exactly when the shapes differ) or returns a double
    that is at least 0 or NaN; for inputs of one shape it is the sum of
    the [|y_fit - y|], in array order from 0, divided by the rows of
    [y]. *)
Theorem absoluteLoss_eval_never_negative (y y_fit : mat) :
  match absoluteLoss.eval y y_fit with
  | Ok v =>
      (is_nan v = true \/ (0 <=? v) = true)
      /\ (n_rows y_fit = n_rows y /\ n_cols y_fit = n_cols y)
      /\ v = fold_left PrimFloat.add
               (map (fun p => PrimFloat.abs (fst p - snd p))
                    (combine (mem y_fit) (mem y))) 0
             / PrimFloat.of_uint63 (Uint63.of_Z (Z.of_nat (n_rows y)))
  | Throw e =>
      e = logic_error "subtraction: incompatible matrix dimensions"
      /\ (n_rows y_fit <> n_rows y \/ n_cols y_fit <> n_cols y)
  end.
Proof.
  unfold absoluteLoss.eval, minus, zip_mat, same_size.
  destruct (Nat.eqb_spec (n_rows y_fit) (n_rows y)) as [Hr|Hr];
    [|split; [reflexivity|now left]].
  destruct (Nat.eqb_spec (n_cols y_fit) (n_cols y)) as [Hc|Hc];
    [|split; [reflexivity|now right]].
  cbn [andb bind]. split; [|split; [now split|]].
  - apply not_negative_cases.
    apply div_not_negative; [|apply of_uword_not_negative].
    unfold accu, abs, map_mat. cbn [mem]. apply sum_not_negative; [exact I|].
    apply Forall_map. apply Forall_forall. intros x _. apply abs_not_negative.
  - unfold accu, abs, map_mat, of_uword. cbn [mem]. now rewrite map_map.
Qed.

(** *** The pseudo-Huber loss and the factory *)

Lemma add_commutes (x y : float) : x + y = y + x.
Proof.
  apply Prim2SF_inj. rewrite !add_spec. unfold SF64add, SFadd.
  destruct (Prim2SF x) as [s1|s1| |s1 m1 e1], (Prim2SF y) as [s2|s2| |s2 m2 e2];
    try reflexivity; try (destruct s1, s2; reflexivity).
  rewrite (Z.min_comm e2 e1). f_equal. now rewrite Z.add_comm.
Qed.

(** X13. The pseudo-Huber loss on [y] and [y_fit] of one shape, element
    by element: [eval] is the sum over the elements, in array order from
    0, of [sqrt(1 + pow(E/dHuber, 2)) - 1] divided by the rows of [y], and
    [grad] holds [E * (1 / sqrt(1 + pow(E/dHuber, 2)))] at each position,
    where [E] is the element of [y_fit - y] (so the quotient of the
    specification is taken as a product with a reciprocal, which rounds
    twice). *)
Theorem pseudoHuberLoss_terms {P : Platform} (d : float) (y y_fit : mat) :
  n_rows y_fit = n_rows y -> n_cols y_fit = n_cols y ->
  pseudoHuberLoss.eval d y y_fit
  = Ok (fold_left PrimFloat.add
          (map (fun p => PrimFloat.sqrt (1 + std_pow ((fst p - snd p) / d) 2) - 1)
               (combine (mem y_fit) (mem y))) 0
        / PrimFloat.of_uint63 (Uint63.of_Z (Z.of_nat (n_rows y))))
  /\ pseudoHuberLoss.grad d y y_fit
     = Ok (Mat (n_rows y_fit) (n_cols y_fit)
             (map (fun p => (fst p - snd p)
                            * (1 / PrimFloat.sqrt
                                     (1 + std_pow ((fst p - snd p) / d) 2)))
                  (combine (mem y_fit) (mem y)))).
Proof.
  intros Hrows Hcols.
  assert (Hs : same_size y_fit y = true).
  { unfold same_size. now rewrite Hrows, Hcols, !Nat.eqb_refl. }
  unfold pseudoHuberLoss.eval, pseudoHuberLoss.grad.
  rewrite minus_ok by assumption. cbn [bind]. split.
  - unfold accu, minus_post, sqrt, plus_pre, pow, div_post, map_mat, of_uword.
    cbn [mem n_rows n_cols]. rewrite !map_map. do 3 f_equal.
    apply map_ext. intros p. f_equal. f_equal. apply add_commutes.
  - unfold schur, zip_mat, same_size, div_pre, sqrt, plus_pre, pow, div_post,
      map_mat. cbn [mem n_rows n_cols]. rewrite !Nat.eqb_refl. cbn [andb].
    do 2 f_equal. rewrite !map_map.
    set (es := combine (mem y_fit) (mem y)).
    induction es as [|p es IH]; [reflexivity|].
    cbn [map combine fst snd]. rewrite IH. do 2 f_equal. f_equal. f_equal.
    apply add_commutes.
Qed.


(** *** The log loss at an exact fit *)

Lemma SFeqb_positive (m : positive) (e : Z) (y : spec_float) :
  SFeqb y (S754_finite false m e) = true -> y = S754_finite false m e.
Proof.
  unfold SFeqb, SFcompare.
  destruct y as [s'|s'| |s' m' e']; try discriminate.
  - destruct s'; discriminate.
  - destruct s'; [discriminate|].
    destruct (Z.compare_spec e' e) as [He|He|He]; try discriminate.
    rewrite Pos.compare_cont_spec. unfold Pos.switch_Eq.
    destruct (Pos.compare_spec m' m) as [Hm|Hm|Hm]; try discriminate.
    now subst.
Qed.

(** Only the double 1 compares equal to 1. *)
Lemma eqb_one (x : float) : (x =? 1) = true -> x = 1.
Proof.
  rewrite eqb_spec, F64.SF_one. intros H. apply Prim2SF_inj. rewrite F64.SF_one.
  now apply SFeqb_positive.
Qed.

Lemma floor_at_ones {P : Platform} (l : list float) :
  std_log 1 = 0 ->
  map (fun p => clamp1 DBL_MIN DBL_MAX (- std_log (snd p)))
      (filter (fun p => fst p =? 1) (combine l l))
  = repeat 0x1p-1022 (length (filter (fun v => v =? 1) l)).
Proof.
  intros Hlog. induction l as [|a l IH]; [reflexivity|].
  cbn [combine filter fst]. destruct (a =? 1) eqn:Ha.
  - apply eqb_one in Ha. subst a. cbn [map snd length repeat].
    rewrite IH, Hlog. reflexivity.
  - exact IH.
Qed.

(** X15. The log loss of an exact fit is not zero.  With [log(1) = +0],
    as C's Annex F prescribes, [logLoss::eval(y, y)] clamps each
    [-log(1) = -0] up to 2^-1022, so what it returns is the sum of one
    2^-1022 per element of [y] equal to 1, divided by the rows of [y]. *)
Theorem logLoss_exact_fit_is_floor {P : Platform} (y : mat) :
  std_log 1 = 0 ->
  logLoss.eval y y
  = Ok (fold_left PrimFloat.add
          (repeat 0x1p-1022 (length (filter (fun v => v =? 1) (mem y)))) 0
        / PrimFloat.of_uint63 (Uint63.of_Z (Z.of_nat (n_rows y)))).
Proof.
  intros Hlog. unfold logLoss.eval, eq_scalar.
  rewrite (gather_where _ y y eq_refl). cbn [bind]. unfold clamp.
  change (DBL_MAX <? DBL_MIN) with false. cbn [bind].
  unfold accu, neg, log, map_mat, of_uword. cbn [mem]. rewrite !map_map.
  now rewrite (floor_at_ones (mem y) Hlog).
Qed.

(** The loss theorems on concrete data. *)

Lemma loss_shape_mismatch_witness :
  loss_grad (P:=platform_sign0) (new_huberLoss 1.5) sample_y (Mat 2 1 [1; 3.5])
  = Throw (logic_error "subtraction: incompatible matrix dimensions")
  /\ loss_eval (P:=platform_sign0) (new_huberLoss 1.5) sample_y (Mat 2 1 [1; 3.5])
     = Throw (logic_error "subtraction: incompatible matrix dimensions").
Proof.
  destruct (loss_shape_mismatch (P:=platform_sign0) (new_huberLoss 1.5)
              sample_y (Mat 2 1 [1; 3.5])) as [Hg He].
  - right. discriminate.
  - split; [exact Hg|]. apply He. intros H.
    apply (f_equal (fun l => match l with new_logLoss => true | _ => false end)) in H.
    discriminate H.
Defined.

Lemma logLoss_eval_checks_indices_only_witness :
  (exists v, logLoss.eval (P:=platform_sign0) (Mat 2 2 [1; 0; 0; 0]) (Mat 1 1 [0.5])
             = Ok v)
  /\ logLoss.eval (P:=platform_sign0) (Mat 2 2 [1; 0; 0; 0]) (Mat 1 1 [0.5])
     = Ok 0.25
  /\ squaredLoss.eval (P:=platform_sign0) (Mat 2 2 [1; 0; 0; 0]) (Mat 1 1 [0.5])
     = Throw (logic_error "subtraction: incompatible matrix dimensions")
  /\ logLoss.eval (P:=platform_sign0) sample_y (Mat 1 1 [0.5])
     = Throw (logic_error "Mat::elem(): index out of bounds").
Proof.
  split; [|split; [reflexivity|split; [reflexivity|]]].
  - apply (proj1 (logLoss_eval_checks_indices_only (P:=platform_sign0)
                    (Mat 2 2 [1; 0; 0; 0]) (Mat 1 1 [0.5]))).
    intros i Hi H1. cbn [mem length] in *.
    destruct i as [|[|[|[|i]]]]; [cbn; lia|discriminate H1..|lia].
  - apply (proj2 (logLoss_eval_checks_indices_only (P:=platform_sign0)
                    sample_y (Mat 1 1 [0.5]))).
    exists 3%nat. repeat split; cbn; lia.
Defined.

Lemma grad_returns_shape_of_y_fit_witness :
  (wf sample_y /\ wf sample_y_fit)
  /\ loss_grad (P:=platform_sign0) new_squaredLoss sample_y sample_y_fit
     = Ok (Mat 2 2 [0; 7; -2; -2])
  /\ forall G, loss_grad (P:=platform_sign0) new_squaredLoss sample_y sample_y_fit
               = Ok G ->
       n_rows G = 2%nat /\ n_cols G = 2%nat /\ wf G.
Proof.
  split; [split; reflexivity|]. split; [reflexivity|].
  exact (proj2 (grad_returns_shape_of_y_fit (P:=platform_sign0) new_squaredLoss
                  sample_y sample_y_fit eq_refl eq_refl)).
Defined.

Lemma exact_fit_has_zero_gradient_witness :
  (wf sample_y /\ Forall (fun x => is_finite x = true) (mem sample_y)
   /\ (0 <? 1.5) = true)
  /\ loss_grad (P:=platform_sign0) (new_huberLoss 1.5) sample_y sample_y
     = Ok (Mat 2 2 [0; 0; 0; 0]).
Proof.
  assert (Hfin : Forall (fun x => is_finite x = true) (mem sample_y))
    by (repeat constructor).
  split; [split; [reflexivity|split; [exact Hfin|reflexivity]]|].
  exact (exact_fit_has_zero_gradient (P:=platform_sign0) (A:=platform_sign0_AnnexF)
           (new_huberLoss 1.5) sample_y eq_refl Hfin eq_refl).
Defined.

Lemma huberLoss_eval_terms_witness :
  huberLoss.eval (P:=platform_sign0) 1 sample_y sample_y_fit = Ok 2
  /\ map (fun p => huber_term (P:=platform_sign0) 1 (fst p - snd p))
         (combine (mem sample_y_fit) (mem sample_y))
     = [0; 3; 0.5; 0.5]
  /\ huberLoss.eval (P:=platform_sign0) 1 sample_y sample_y_fit
     = Ok (fold_left PrimFloat.add
             (map (fun p => huber_term (P:=platform_sign0) 1 (fst p - snd p))
                  (combine (mem sample_y_fit) (mem sample_y)))
             0
           / PrimFloat.of_uint63 (Uint63.of_Z (Z.of_nat (n_rows sample_y)))).
Proof.
  split; [reflexivity|]. split; [reflexivity|].
  exact (huberLoss_eval_terms (P:=platform_sign0) 1 sample_y sample_y_fit
           eq_refl eq_refl).
Defined.

Lemma absoluteLoss_eval_symmetric_witness :
  absoluteLoss.eval sample_y sample_y_fit = Ok 2.75
  /\ absoluteLoss.eval sample_y_fit sample_y = Ok 2.75
  /\ absoluteLoss.eval sample_y sample_y_fit = absoluteLoss.eval sample_y_fit sample_y.
Proof.
  split; [reflexivity|]. split; [reflexivity|].
  exact (absoluteLoss_eval_symmetric sample_y sample_y_fit).
Defined.

Lemma absoluteLoss_eval_never_negative_witness :
  absoluteLoss.eval sample_y sample_y_fit = Ok 2.75
  /\ absoluteLoss.eval (Mat 1 1 [infinity]) (Mat 1 1 [infinity]) = Ok nan
  /\ match absoluteLoss.eval sample_y sample_y_fit with
     | Ok v => is_nan v = true \/ (0 <=? v) = true
     | Throw _ => False
     end.
Proof.
  split; [reflexivity|]. split; [reflexivity|].
  pose proof (absoluteLoss_eval_never_negative sample_y sample_y_fit) as H.
  destruct (absoluteLoss.eval sample_y sample_y_fit) as [v|e].
  - exact (proj1 H).
  - destruct H as [_ [H|H]]; now contradiction H.
Defined.

Lemma pseudoHuberLoss_terms_witness :
  pseudoHuberLoss.eval (P:=platform_sign0) 1 (Mat 1 2 [0; 0]) (Mat 1 2 [0.75; 0])
  = Ok 0.25
  /\ pseudoHuberLoss.grad (P:=platform_sign0) 1 (Mat 1 2 [0; 0]) (Mat 1 2 [0.75; 0])
     = Ok (Mat 1 2 [0x1.3333333333334p-1; 0])
  /\ 0.75 / PrimFloat.sqrt (1 + (0.75 / 1) * (0.75 / 1)) = 0x1.3333333333333p-1
  /\ pseudoHuberLoss.grad (P:=platform_sign0) 1 (Mat 1 2 [0; 0]) (Mat 1 2 [0.75; 0])
     = Ok (Mat 1 2
             (map (fun p => (fst p - snd p)
                            * (1 / PrimFloat.sqrt
                                     (1 + sample_pow ((fst p - snd p) / 1) 2)))
                  (combine [0.75; 0] [0; 0]))).
Proof.
  split; [reflexivity|]. split; [reflexivity|]. split; [reflexivity|].
  exact (proj2 (pseudoHuberLoss_terms (P:=platform_sign0) 1 (Mat 1 2 [0; 0])
                  (Mat 1 2 [0.75; 0]) eq_refl eq_refl)).
Defined.


Lemma logLoss_exact_fit_is_floor_witness :
  std_log (Platform:=platform_sign0) 1 = 0
  /\ logLoss.eval (P:=platform_sign0) sample_y sample_y = Ok 0x1p-1022
  /\ logLoss.eval (P:=platform_sign0) sample_y sample_y
     = Ok (fold_left PrimFloat.add (repeat 0x1p-1022 2) 0
           / PrimFloat.of_uint63 (Uint63.of_Z (Z.of_nat 2))).
Proof.
  split; [reflexivity|]. split; [reflexivity|].
  exact (logLoss_exact_fit_is_floor (P:=platform_sign0) sample_y eq_refl).
Defined.
